(** * SwiftCheck: the transform-synchronisation engine of the comparison viewer

  A shallow embedding of [components/ComparisonViewer.tsx] (the transform
  table, its reconciliation effect and the wheel / button / reset / pan
  handlers), of [types.ts] and of the state updates and the conditional
  rendering of [App.tsx].

  - A JavaScript [number] is an IEEE-754 binary64 value: [spec_float] with
    the operations of [SpecFloat] at precision 53 and [emax] 1024.  That a
    sum or a product of binary64 values is one again is read off
    [FloatAxioms], which relates these operations to the primitive floats.
  - [transformsRef.current], a plain object used as a dictionary from image
    id to transform, is a [gmap string TransformState].  The ids are the
    strings [crypto.randomUUID()] returns in [App.tsx]; none of them is a
    property name of [Object.prototype], so reading [obj[id]] is the lookup
    of the map.
  - A handler either completes or lets a [TypeError] escape (reading a
    field of [undefined]); both outcomes carry the table they leave. *)

From stdpp Require Import gmap strings list fin_maps.
From Stdlib Require Import QArith Qpower Qminmax.
From Corelib Require Import PrimFloat FloatOps SpecFloat FloatAxioms.

Set Default Proof Using "Type".
Local Set Warnings "-inexact-float".
Local Open Scope Z_scope.

(** ** JavaScript numbers *)

Module JsNumber.

Definition number : Type := spec_float.

Definition prec : Z := 53.
Definition emax : Z := 1024.

(** A numeric literal of the source denotes the binary64 value nearest to
    it. *)
Definition lit (f : float) : number := Prim2SF f.

Definition add : number → number → number := SFadd prec emax.
Definition sub : number → number → number := SFsub prec emax.
Definition mul : number → number → number := SFmul prec emax.
Definition neg : number → number := SFopp.

Definition is_nan (a : number) : bool :=
  match a with S754_nan => true | _ => false end.

Definition is_neg_zero (a : number) : bool :=
  match a with S754_zero true => true | _ => false end.

Definition is_pos_zero (a : number) : bool :=
  match a with S754_zero false => true | _ => false end.

(** [Math.max(a, b)]: NaN when either argument is NaN, else the larger
    one, [+0] counting as larger than [-0]. *)
Definition Math_max (a b : number) : number :=
  match SFcompare a b with
  | None => S754_nan
  | Some Lt => b
  | Some Gt => a
  | Some Eq => if is_neg_zero a then b else a
  end.

(** [Math.min(a, b)]: NaN when either argument is NaN, else the smaller
    one, [-0] counting as smaller than [+0]. *)
Definition Math_min (a b : number) : number :=
  match SFcompare a b with
  | None => S754_nan
  | Some Lt => a
  | Some Gt => b
  | Some Eq => if is_pos_zero a then b else a
  end.

Definition leb : number → number → bool := SFleb.
Definition ltb : number → number → bool := SFltb.

#[global] Instance number_eq_dec : EqDecision number.
Proof. solve_decision. Defined.

End JsNumber.

Import JsNumber.

(** ** types.ts *)

Module Types.

Record TransformState : Type := mkTransformState {
  x : number;
  y : number;
  scale : number
}.

Record ImageState : Type := mkImageState {
  id : string;
  src : string;
  name : string;
  dimensions : option (number * number);
  size : option number
}.

#[global] Instance TransformState_eq_dec : EqDecision TransformState.
Proof. solve_decision. Defined.

End Types.

Export Types (TransformState, mkTransformState, ImageState, mkImageState).

(** ** Truthiness of [string | null] values *)

Module Js.

(** [null], [undefined] and the empty string are the falsy values of type
    [string | null | undefined]. *)
Definition truthy (v : option string) : bool :=
  match v with
  | Some EmptyString => false
  | Some _ => true
  | None => false
  end.

(** [a || b] *)
Definition or_else (a b : option string) : option string :=
  if truthy a then a else b.

End Js.

(** ** components/ComparisonViewer.tsx *)

Module ComparisonViewer.

(** How a handler ends, with the contents of [transformsRef.current] at
    that point. *)
Inductive Completion : Type :=
| Normal (tr : gmap string TransformState)
| Throws (tr : gmap string TransformState).

Definition table_of (c : Completion) : gmap string TransformState :=
  match c with Normal tr | Throws tr => tr end.

Definition identity : TransformState :=
  mkTransformState (lit 0) (lit 0) (lit 1).

(** [Object.keys(obj)] *)
Definition Object_keys (tr : gmap string TransformState) : list string :=
  (map_to_list tr).*1.

Section Component.
(** The props the handlers close over. *)
Variable images : list ImageState.
Variable isSynced : bool.

(** The effect on [[images]]: entries for new images, then removal of
    the entries of removed ones (the [ensure] of the specification). *)
Definition ensure (tr : gmap string TransformState)
  : gmap string TransformState :=
  let tr1 :=
    foldl (λ acc img,
             match acc !! Types.id img with
             | Some _ => acc
             | None => <[Types.id img := identity]> acc
             end) tr images in
  let activeIds : gset string := list_to_set (Types.id <$> images) in
  foldl (λ acc key,
           if decide (key ∈ activeIds) then acc else delete key acc)
        tr1 (Object_keys tr1).

(** [images.forEach(img => { transformsRef.current[img.id] = s })] *)
Definition assignAll (s : TransformState)
    (tr : gmap string TransformState) : gmap string TransformState :=
  foldl (λ acc img, <[Types.id img := s]> acc) tr images.

(** [targetId || images[0]?.id] *)
Definition referenceId (targetId : option string) : option string :=
  Js.or_else targetId (Types.id <$> head images).

(** An updater receives [transformsRef.current[id]], which is
    [undefined] for a missing key; it answers [None] when it throws. *)
Definition applyTransformUpdate (targetId : option string)
    (updater : option TransformState → option TransformState)
    (tr : gmap string TransformState) : Completion :=
  if isSynced || negb (Js.truthy targetId) then
    match referenceId targetId with
    | Some rid =>
        if negb (Js.truthy (referenceId targetId)) then Normal tr
        else
          match updater (tr !! rid) with
          | Some newState => Normal (assignAll newState tr)
          | None => Throws tr
          end
    | None => Normal tr
    end
  else
    match targetId with
    | Some tid =>
        match tr !! tid with
        | Some prev =>
            match updater (Some prev) with
            | Some s => Normal (<[tid := s]> tr)
            | None => Throws tr
            end
        | None => Normal tr
        end
    | None => Normal tr
    end.

Definition ZOOM_SPEED : number := lit 0.001.

(** [Math.min(Math.max(0.1, v), 20)] *)
Definition clampScale (v : number) : number :=
  Math_min (Math_max (lit 0.1) v) (lit 20).

(** [(prev) => ({ ...prev, scale: clamp(prev.scale + delta) })];
    [prev.scale] on [undefined] is a [TypeError]. *)
Definition wheelUpdater (delta : number)
    (prev : option TransformState) : option TransformState :=
  match prev with
  | Some p =>
      Some (mkTransformState (Types.x p) (Types.y p)
              (clampScale (add (Types.scale p) delta)))
  | None => None
  end.

Definition handleWheel (deltaY : number) (id : string)
    (tr : gmap string TransformState) : Completion :=
  let delta := mul deltaY (neg ZOOM_SPEED) in
  applyTransformUpdate (Some id) (wheelUpdater delta) tr.

Inductive Direction : Type := dir_in | dir_out.

Definition zoomFactor (direction : Direction) : number :=
  match direction with dir_in => lit 1.25 | dir_out => lit 0.8 end.

Definition btnUpdater (factor : number)
    (prev : option TransformState) : option TransformState :=
  match prev with
  | Some p =>
      Some (mkTransformState (Types.x p) (Types.y p)
              (clampScale (mul (Types.scale p) factor)))
  | None => None
  end.

Definition handleZoomBtn (id : option string) (direction : Direction)
    (tr : gmap string TransformState) : Completion :=
  applyTransformUpdate id (btnUpdater (zoomFactor direction)) tr.

(** Every entry written by a reset is the one [resetState] object; no
    handler updates a transform object in place (each builds a new object),
    so entries are plain values. *)
Definition handleReset (id : option string)
    (tr : gmap string TransformState) : gmap string TransformState :=
  let resetState := mkTransformState (lit 0) (lit 0) (lit 1) in
  if isSynced || negb (Js.truthy id) then assignAll resetState tr
  else
    match id with
    | Some i => <[i := resetState]> tr
    | None => tr
    end.

(** [{ ...t, x: t.x + dx, y: t.y + dy }] *)
Definition moved (dx dy : number) (t : TransformState) : TransformState :=
  mkTransformState (add (Types.x t) dx) (add (Types.y t) dy)
                   (Types.scale t).

(** The synced branch of [handleMouseMove]: the [forEach] stops at the
    first image without an entry ([t.x] on [undefined]). *)
Fixpoint moveAll (dx dy : number) (imgs : list ImageState)
    (tr : gmap string TransformState) : Completion :=
  match imgs with
  | [] => Normal tr
  | img :: rest =>
      match tr !! Types.id img with
      | Some t => moveAll dx dy rest (<[Types.id img := moved dx dy t]> tr)
      | None => Throws tr
      end
  end.

Definition handleMouseMove (isPanning : bool)
    (activeImageIdRef : option string) (dx dy : number)
    (tr : gmap string TransformState) : Completion :=
  if negb isPanning || negb (Js.truthy activeImageIdRef) then Normal tr
  else if isSynced then moveAll dx dy images tr
  else
    match activeImageIdRef with
    | Some targetId =>
        match tr !! targetId with
        | Some t => Normal (<[targetId := moved dx dy t]> tr)
        | None => Normal tr
        end
    | None => Normal tr
    end.

End Component.

End ComparisonViewer.

(** ** App.tsx *)

Module App.

(** [prev.filter(img => img.id !== id)] *)
Definition handleRemove (id : string) (images : list ImageState)
  : list ImageState :=
  filter (λ img, Types.id img ≠ id) images.

(** What [processFiles] reads of a [File]. *)
Record FileInfo : Type := mkFileInfo {
  file_type : string;
  file_name : string;
  file_size : number
}.

(** [file.type.startsWith('image/')]: the files [processFiles] does not
    skip. *)
Definition isImageFile (file : FileInfo) : bool :=
  String.prefix "image/" (file_type file).

(** The state update of [img.onload] in [processFiles],
    [prev => [...prev, { id, src, name, size, dimensions }]], for the id
    [crypto.randomUUID()] returned, the data URL read and the decoded
    width and height. *)
Definition imageLoaded (uuid src : string) (file : FileInfo)
    (width height : number) (prev : list ImageState) : list ImageState :=
  prev ++ [mkImageState uuid src (file_name file) (Some (width, height))
             (Some (file_size file))].

Record Layout : Type := mkLayout { rows : number; cols : number }.

#[global] Instance Layout_eq_dec : EqDecision Layout.
Proof. solve_decision. Defined.

(** [useState({ rows: 1, cols: 2 })] *)
Definition initialLayout : Layout := mkLayout (lit 1) (lit 2).

Inductive LayoutKey : Type := key_rows | key_cols.

(** [prev[key]] *)
Definition layoutGet (key : LayoutKey) (l : Layout) : number :=
  match key with key_rows => rows l | key_cols => cols l end.

(** [{ ...prev, [key]: v }] *)
Definition layoutSet (key : LayoutKey) (v : number) (l : Layout) : Layout :=
  match key with
  | key_rows => mkLayout v (cols l)
  | key_cols => mkLayout (rows l) v
  end.

(** The state update of [updateLayout(key, delta)]. *)
Definition updateLayout (key : LayoutKey) (delta : number) (prev : Layout)
  : Layout :=
  let newValue := add (layoutGet key prev) delta in
  if ltb newValue (lit 1) || ltb (lit 8) newValue then prev
  else layoutSet key newValue prev.

(** The state of [App]. *)
Record AppState : Type := mkAppState {
  images : list ImageState;
  layout : Layout;
  isSynced : bool
}.

(** [clearAll], for the answer [confirm] gives. *)
Definition clearAll (confirmed : bool) (st : AppState) : AppState :=
  if confirmed then mkAppState [] (mkLayout (lit 1) (lit 2)) (isSynced st)
  else st.

(** What [App] renders in [<main>]: the [Dropzone] while [images] is empty,
    the [ComparisonViewer] otherwise.  [viewer] is the table of the viewer
    mounted so far, [None] when there is none.  A viewer that mounts starts
    from [useRef({})]; its effect on [images] then reconciles the table; a
    viewer that is unmounted loses its table. *)
Definition render (images : list ImageState)
    (viewer : option (gmap string TransformState))
  : option (gmap string TransformState) :=
  match images with
  | [] => None
  | _ :: _ => Some (ComparisonViewer.ensure images (default ∅ viewer))
  end.

End App.

(** * The operations of the specification *)

Module Spec.

Import ComparisonViewer.

(** The identifiers of the tracked images, in grid order. *)
Definition ids (images : list ImageState) : list string :=
  Types.id <$> images.

(** The key-set invariant of the transform table. *)
Definition reconciled (images : list ImageState)
    (tr : gmap string TransformState) : Prop :=
  dom tr = list_to_set (ids images).

(** A single mutation of the table: a wheel event on a tile, a zoom button
    (of a tile, or of the toolbar with [null]), a reset, or a pointer move
    during a drag that started on the tile [activeImageIdRef]. *)
Inductive Mutation : Type :=
| Wheel (deltaY : number) (id : string)
| ZoomBtn (id : option string) (direction : Direction)
| Reset (id : option string)
| PanStep (activeImageIdRef : option string) (dx dy : number).

Definition target (m : Mutation) : option string :=
  match m with
  | Wheel _ id => Some id
  | ZoomBtn id _ => id
  | Reset id => id
  | PanStep a _ _ => a
  end.

Definition is_pan (m : Mutation) : bool :=
  match m with PanStep _ _ _ => true | _ => false end.

Definition is_zoom (m : Mutation) : bool :=
  match m with Wheel _ _ | ZoomBtn _ _ => true | _ => false end.

Definition mutate (images : list ImageState) (isSynced : bool)
    (m : Mutation) (tr : gmap string TransformState) : Completion :=
  match m with
  | Wheel deltaY id => handleWheel images isSynced deltaY id tr
  | ZoomBtn id direction => handleZoomBtn images isSynced id direction tr
  | Reset id => Normal (handleReset images isSynced id tr)
  | PanStep a dx dy => handleMouseMove images isSynced true a dx dy tr
  end.

(** The transform a zoom or a reset makes of the reference transform. *)
Definition updated (m : Mutation) (r : TransformState) : TransformState :=
  match m with
  | Wheel deltaY _ =>
      mkTransformState (Types.x r) (Types.y r)
        (clampScale (add (Types.scale r) (mul deltaY (neg ZOOM_SPEED))))
  | ZoomBtn _ direction =>
      mkTransformState (Types.x r) (Types.y r)
        (clampScale (mul (Types.scale r) (zoomFactor direction)))
  | Reset _ => identity
  | PanStep _ dx dy => moved dx dy r
  end.

(** Events are handled one after the other, each under the sync mode in
    force when it arrives; an escaped [TypeError] ends its own handler
    only. *)
Definition run (images : list ImageState) (ops : list (bool * Mutation))
    (tr : gmap string TransformState) : gmap string TransformState :=
  foldl (λ acc op, table_of (mutate images op.1 op.2 acc)) tr ops.

(** [deltaY] is a [double] of the DOM: it is never NaN. *)
Definition delta_ok (m : Mutation) : bool :=
  match m with Wheel deltaY _ => negb (is_nan deltaY) | _ => true end.

(** The interval [[0.1, 20]] of the scale. *)
Definition in_range (s : number) : bool :=
  leb (lit 0.1) s && leb s (lit 20).

(** Every entry of the table has its scale in [[0.1, 20]]. *)
Definition scales_in_range (tr : gmap string TransformState) : Prop :=
  map_Forall (λ _ t, in_range (Types.scale t) = true) tr.

(** One wheel operation on a scale. *)
Definition wheelStep (s deltaY : number) : number :=
  clampScale (add s (mul deltaY (neg ZOOM_SPEED))).

(** Successive wheel events on one tile. *)
Definition wheels (isSynced : bool) (id : string) (deltas : list number)
  : list (bool * Mutation) :=
  (λ deltaY, (isSynced, Wheel deltaY id)) <$> deltas.

Definition scale_at (id : string) (tr : gmap string TransformState)
  : option number :=
  Types.scale <$> tr !! id.

(** Two wheel events give the scale one event with the sum of their deltas
    gives. *)
Definition split_agrees (images : list ImageState) (isSynced : bool)
    (id : string) (tr : gmap string TransformState) (d1 d2 : number) : Prop :=
  scale_at id (run images (wheels isSynced id [d1; d2]) tr)
  = scale_at id (run images (wheels isSynced id [add d1 d2]) tr).

(** All tracked images show the same transform. *)
Definition aligned (images : list ImageState)
    (tr : gmap string TransformState) : Prop :=
  ∀ i j, i ∈ ids images → j ∈ ids images → tr !! i = tr !! j.

Definition is_finite (a : number) : bool :=
  match a with
  | S754_zero _ | S754_finite _ _ _ => true
  | _ => false
  end.

(** The rational a finite number stands for. *)
Definition value (a : number) : Q :=
  match a with
  | S754_finite s m e =>
      let q := (inject_Z (Z.pos m) * Qpower 2 e)%Q in
      if s then (- q)%Q else q
  | _ => 0%Q
  end.

(** An addition of finite numbers that incurs no rounding. *)
Definition exact_add (a b : number) : Prop :=
  is_finite a = true ∧ is_finite b = true ∧ is_finite (add a b) = true
  ∧ (value (add a b) == value a + value b)%Q.

(** Three images for the scenarios. *)
Definition imgA : ImageState := mkImageState "imgA" "blob:a" "a.png" None None.
Definition imgB : ImageState := mkImageState "imgB" "blob:b" "b.png" None None.
Definition imgC : ImageState := mkImageState "imgC" "blob:c" "c.png" None None.

(** Both images freshly tracked. *)
Definition fresh2 : gmap string TransformState := ensure [imgA; imgB] ∅.

(** [imgB] dragged by [(5, -3)] on its own, [imgA] untouched. *)
Definition offset2 : gmap string TransformState :=
  table_of (mutate [imgA; imgB] false
              (PanStep (Some "imgB") (lit 5) (lit (-3))) fresh2).

(** [imgA] dragged by [(0.1, 0)] on its own, [imgB] untouched. *)
Definition nudged2 : gmap string TransformState :=
  table_of (mutate [imgA; imgB] false
              (PanStep (Some "imgA") (lit 0.1) (lit 0)) fresh2).

(** The difference of the offsets of two images, as [a.x - b.x] and
    [a.y - b.y] compute it. *)
Definition offset_difference (tr : gmap string TransformState)
    (i j : string) : option (number * number) :=
  match tr !! i, tr !! j with
  | Some ti, Some tj =>
      Some (sub (Types.x ti) (Types.x tj), sub (Types.y ti) (Types.y tj))
  | _, _ => None
  end.

(** A zoom far out on [imgA], the toolbar zoom-in, a zoom far in on
    [imgB]. *)
Definition zooms3 : list (bool * Mutation) :=
  [(true, Wheel (lit 100000) "imgA");
   (false, ZoomBtn None dir_in);
   (true, Wheel (lit (-1000000)) "imgB")].

(** A mutation that changes no entry but the one of [id]. *)
Definition changes_only (id : string)
    (tr tr' : gmap string TransformState) : Prop :=
  ∀ k, k ≠ id → tr' !! k = tr !! k.

(** Every tracked image shows the identity transform. *)
Definition all_identity (images : list ImageState)
    (tr : gmap string TransformState) : Prop :=
  ∀ img, img ∈ images → tr !! Types.id img = Some identity.

End Spec.

(** ** components/ComparisonViewer.tsx: the drag gesture *)

Module Drag.

Import ComparisonViewer.

(** The [isPanning] state and [activeImageIdRef.current]. *)
Record DragState : Type := mkDragState {
  isPanning : bool;
  activeImageIdRef : option string
}.

(** [useState(false)] and [useRef(null)] *)
Definition idle : DragState := mkDragState false None.

(** [e.button !== 0] returns early. *)
Definition handleMouseDown (button : number) (id : string) (d : DragState)
  : DragState :=
  if negb (SFeqb button (lit 0)) then d else mkDragState true (Some id).

Definition handleMouseUp (d : DragState) : DragState :=
  mkDragState false None.

(** The mouse events the viewer listens to: [mousedown] on the tile of an
    image, [mousemove] and [mouseup] on the window. *)
Inductive MouseEvent : Type :=
| MouseDown (button : number) (id : string)
| MouseMove (movementX movementY : number)
| MouseUp.

(** One event: the window listeners are attached only while [isPanning]
    holds. *)
Definition step (images : list ImageState) (isSynced : bool)
    (ev : MouseEvent) (st : DragState * gmap string TransformState)
  : DragState * gmap string TransformState :=
  match ev with
  | MouseDown button id => (handleMouseDown button id st.1, st.2)
  | MouseMove dx dy =>
      if isPanning st.1 then
        (st.1, table_of (handleMouseMove images isSynced (isPanning st.1)
                           (activeImageIdRef st.1) dx dy st.2))
      else st
  | MouseUp => if isPanning st.1 then (handleMouseUp st.1, st.2) else st
  end.

Definition steps (images : list ImageState) (isSynced : bool)
    (evs : list MouseEvent) (st : DragState * gmap string TransformState)
  : DragState * gmap string TransformState :=
  foldl (λ acc ev, step images isSynced ev acc) st evs.

(** A press of the primary button on the tile [id], the pointer moves
    [moves], and the release. *)
Definition gesture (button : number) (id : string)
    (moves : list (number * number)) : list MouseEvent :=
  MouseDown button id :: ((λ m, MouseMove m.1 m.2) <$> moves) ++ [MouseUp].

(** [t] moved by each of [moves] in turn. *)
Definition movedBy (moves : list (number * number)) (t : TransformState)
  : TransformState :=
  foldl (λ acc m, moved m.1 m.2 acc) t moves.

Definition is_primary_press (ev : MouseEvent) : bool :=
  match ev with
  | MouseDown button _ => SFeqb button (lit 0)
  | _ => false
  end.

End Drag.

(** ** Further notions used by the properties below *)

Module Grid.

(** A grid dimension within [[1, 8]]. *)
Definition in_grid (v : number) : bool :=
  leb (lit 1) v && leb v (lit 8).

(** The dimensions the [+] and [-] buttons can reach. *)
Definition grid_values : list number :=
  [lit 1; lit 2; lit 3; lit 4; lit 5; lit 6; lit 7; lit 8].

(** The deltas the buttons of the header pass. *)
Definition button_deltas : list number := [lit 1; lit (-1)].

Definition is_zero (v : number) : bool :=
  match v with S754_zero _ => true | _ => false end.

(** The layout after the presses of the header buttons, each a key and a
    delta, starting from the initial layout. *)
Definition pressed (presses : list (App.LayoutKey * number)) : App.Layout :=
  foldl (λ acc p, App.updateLayout p.1 p.2 acc) App.initialLayout presses.

(** What one press of a button makes of a layout of reachable dimensions:
    reachable dimensions again, and a change that the opposite press
    undoes. *)
Definition press_ok (key : App.LayoutKey) (delta : number)
    (prev : App.Layout) : Prop :=
  App.rows (App.updateLayout key delta prev) ∈ grid_values
  ∧ App.cols (App.updateLayout key delta prev) ∈ grid_values
  ∧ (App.updateLayout key delta prev = prev
     ∨ App.updateLayout key (neg delta) (App.updateLayout key delta prev)
       = prev).

End Grid.

(** ** Wheel events without rounding *)

Module Exact.
Import ComparisonViewer Spec.

(** A number in its binary64 representation. *)
Definition is_double (x : number) : bool :=
  SpecFloat.valid_binary prec emax x.

(** A finite number as a multiple of [2 ^ -1074], the smallest positive
    binary64 value. *)
Definition units (x : number) : Z :=
  match x with
  | S754_finite s m e => cond_Zopp s (Z.pos m * 2 ^ (e + 1074))
  | _ => 0
  end.

(** [e.deltaY * -ZOOM_SPEED] *)
Definition wheelDelta (deltaY : number) : number :=
  mul deltaY (neg ZOOM_SPEED).

(** Two scale deltas that both zoom in or both zoom out. *)
Definition same_direction (delta1 delta2 : number) : Prop :=
  (0 <= value delta1 ∧ 0 <= value delta2)%Q
  ∨ (value delta1 <= 0 ∧ value delta2 <= 0)%Q.

(** No rounding when the wheel delta [d2] follows the wheel delta [d1] from
    the scale [s], nor when the two come as one event: the three additions
    to the scale are exact, and the scale delta of the combined event is the
    sum of the two scale deltas. *)
Definition split_exact (s d1 d2 : number) : Prop :=
  same_direction (wheelDelta d1) (wheelDelta d2)
  ∧ exact_add s (wheelDelta d1)
  ∧ exact_add (wheelStep s d1) (wheelDelta d2)
  ∧ exact_add s (wheelDelta (add d1 d2))
  ∧ (value (wheelDelta (add d1 d2))
     == value (wheelDelta d1) + value (wheelDelta d2))%Q.

(** The same for a wheel delta [d] followed by the wheel deltas [ds]: each
    further delta is split off the sum of the deltas before it. *)
Fixpoint splits_exact (s d : number) (ds : list number) : Prop :=
  match ds with
  | [] => exact_add s (wheelDelta d)
  | d' :: rest =>
      is_double d' = true ∧ split_exact s d d'
      ∧ splits_exact s (add d d') rest
  end.

(** The scale deltas of a sequence of wheel events, summed without
    rounding. *)
Fixpoint sum_deltas (ds : list number) : Q :=
  match ds with
  | [] => 0%Q
  | d :: rest => (value (wheelDelta d) + sum_deltas rest)%Q
  end.

(** [Math.min(Math.max(0.1, q), 20)] on the rationals, [0.1] being the
    number the literal denotes. *)
Definition Qclamp (q : Q) : Q :=
  Qmin (Qmax (value (lit 0.1)) q) (value (lit 20)).

End Exact.

(** * Facts about numbers *)

Module NumberFacts.

Import ComparisonViewer Spec.

Lemma compare_None a b :
  SFcompare a b = None → is_nan a = true ∨ is_nan b = true.
Proof.
  destruct a as [sa|sa| |sa ma ea], b as [sb|sb| |sb mb eb];
    simpl; auto; try discriminate.
  all: repeat match goal with s : bool |- _ => destruct s end;
    discriminate.
Qed.

(** The decimal literals of the source, read as binary64 values, are the
    correctly rounded quotients they denote. *)
Lemma literals_rounded :
  lit 0.1 = SFdiv prec emax (lit 1) (lit 10)
  ∧ lit 0.001 = SFdiv prec emax (lit 1) (lit 1000)
  ∧ lit 0.8 = SFdiv prec emax (lit 8) (lit 10)
  ∧ lit 1.25 = SFdiv prec emax (lit 5) (lit 4)
  ∧ lit 1.01 = SFdiv prec emax (lit 101) (lit 100)
  ∧ lit 20 = S754_finite false (2 ^ 52 + 2 ^ 50) (-48)
  ∧ lit 1 = S754_finite false (2 ^ 52) (-52).
Proof. repeat split; by vm_compute. Qed.

(** ** Rounding never produces NaN *)

Lemma iter_pos_preserves {A} (P : A → Prop) (f : A → A) :
  (∀ a, P a → P (f a)) → ∀ n a, P a → P (iter_pos f n a).
Proof.
  intros Hf n. induction n as [n IH|n IH|]; intros a Ha; simpl; auto.
Qed.

Lemma shr_1_nonneg mrs : 0 ≤ shr_m mrs → 0 ≤ shr_m (shr_1 mrs).
Proof.
  destruct mrs as [m r s]. simpl.
  destruct m as [|p|p]; [done| |lia].
  intros _. destruct p; simpl; lia.
Qed.

Lemma shr_nonneg mrs e n :
  0 ≤ shr_m mrs → 0 ≤ shr_m (shr mrs e n).1.
Proof.
  intros H. unfold shr. destruct n; simpl; auto.
  by apply (iter_pos_preserves (λ mrs, 0 ≤ shr_m mrs));
    [apply shr_1_nonneg|].
Qed.

Lemma shr_fexp_nonneg m e l :
  0 ≤ m → 0 ≤ shr_m (shr_fexp prec emax m e l).1.
Proof.
  intros H. unfold shr_fexp. apply shr_nonneg.
  by destruct l as [|[]].
Qed.

Lemma round_nearest_even_nonneg m l :
  0 ≤ m → 0 ≤ round_nearest_even m l.
Proof.
  intros H. unfold round_nearest_even.
  destruct l as [|[]]; try done; [destruct (Z.even m)|]; lia.
Qed.

Lemma binary_round_aux_not_nan sx mx ex lx :
  0 ≤ mx → is_nan (binary_round_aux prec emax sx mx ex lx) = false.
Proof.
  intros H. unfold binary_round_aux.
  pose proof (shr_fexp_nonneg mx ex lx H) as H1.
  destruct (shr_fexp prec emax mx ex lx) as [mrs' e']. simpl in H1.
  pose proof (shr_fexp_nonneg
    (round_nearest_even (shr_m mrs') (loc_of_shr_record mrs')) e' loc_Exact
    (round_nearest_even_nonneg _ _ H1)) as H2.
  destruct (shr_fexp prec emax _ e' loc_Exact) as [mrs'' e'']. simpl in H2.
  destruct (shr_m mrs'') as [|p|p]; [done| |lia].
  by destruct (_ <=? _).
Qed.

Lemma binary_normalize_not_nan m e szero :
  is_nan (binary_normalize prec emax m e szero) = false.
Proof.
  unfold binary_normalize, binary_round.
  destruct m as [|p|p]; [done| |];
    destruct (shl_align _ _ _) as [mz ez];
    by apply binary_round_aux_not_nan.
Qed.

Lemma add_not_nan a b :
  is_finite a = true → is_nan b = false → is_nan (add a b) = false.
Proof.
  destruct a as [sa|sa| |sa ma ea], b as [sb|sb| |sb mb eb];
    try discriminate; intros _ _; unfold add; simpl; try done.
  - by destruct sa, sb.
  - apply binary_normalize_not_nan.
Qed.

Lemma mul_not_nan a sb mb eb :
  is_nan a = false → is_nan (mul a (S754_finite sb mb eb)) = false.
Proof.
  destruct a as [sa|sa| |sa ma ea]; try discriminate; intros _;
    unfold mul; simpl; try done.
  by apply binary_round_aux_not_nan.
Qed.

(** ** The clamp *)

Lemma in_range_finite s :
  in_range s = true → ∃ sg m e, s = S754_finite sg m e.
Proof.
  unfold in_range. intros H.
  destruct s as [sg|[]| |sg m e]; [vm_compute in H; discriminate..|].
  eauto.
Qed.

Lemma clampScale_in_range v :
  is_nan v = false → in_range (clampScale v) = true.
Proof.
  intros Hv. unfold clampScale, Math_max.
  destruct (SFcompare (lit 0.1) v) as [c|] eqn:Hc; cycle 1.
  { apply compare_None in Hc as [Hc|Hc]; [vm_compute in Hc|]; congruence. }
  set (w := match c with
            | Eq => if is_neg_zero (lit 0.1) then v else lit 0.1
            | Lt => v
            | Gt => lit 0.1
            end).
  assert (Hlo : leb (lit 0.1) w = true).
  { subst w. destruct c; [vm_compute; done| |vm_compute; done].
    unfold leb, SFleb. by rewrite Hc. }
  assert (Hz : is_pos_zero w = false).
  { subst w. destruct c; [vm_compute; done| |vm_compute; done].
    destruct v as [[]| | |]; try done; vm_compute in Hc; discriminate. }
  assert (Hw : is_nan w = false).
  { subst w. by destruct c. }
  unfold Math_min.
  destruct (SFcompare w (lit 20)) as [c'|] eqn:Hc'; cycle 1.
  { apply compare_None in Hc' as [Hc'|Hc']; [|vm_compute in Hc'];
      congruence. }
  unfold in_range.
  destruct c'.
  - rewrite Hz, Hlo. unfold leb, SFleb. by rewrite Hc'.
  - rewrite Hlo. unfold leb, SFleb. by rewrite Hc'.
  - by vm_compute.
Qed.

End NumberFacts.

(** * Facts about the transform table *)

Module TableFacts.

Import ComparisonViewer Spec.

Lemma truthy_Some (i : string) :
  Js.truthy (Some i) = true ↔ i ≠ EmptyString.
Proof. destruct i; simpl; split; congruence. Qed.

Lemma elem_of_ids (images : list ImageState) (img : ImageState) :
  img ∈ images → Types.id img ∈ ids images.
Proof. intros H. unfold ids. by apply list_elem_of_fmap_2. Qed.

Lemma decide_cons_ne {B} (k a : string) (l : list string) (u v : B) :
  k ≠ a →
  (if decide (k ∈ a :: l) then u else v) = (if decide (k ∈ l) then u else v).
Proof.
  intros Hne. apply decide_ext. rewrite elem_of_cons.
  split; [by intros [?|?]|by right].
Qed.

(** ** [assignAll] *)

Lemma assignAll_lookup (images : list ImageState) s
    (tr : gmap string TransformState) k :
  assignAll images s tr !! k =
    if decide (k ∈ ids images) then Some s else tr !! k.
Proof.
  unfold assignAll, ids. revert tr.
  induction images as [|img images IH]; intros tr.
  - rewrite fmap_nil, decide_False; [done|]. apply not_elem_of_nil.
  - rewrite fmap_cons. cbn [foldl]. rewrite IH.
    destruct (decide (k = Types.id img)) as [->|Hne].
    + rewrite lookup_insert_eq, (decide_True (P := _ ∈ _ :: _));
        [by destruct (decide (_ ∈ _))|]. apply list_elem_of_here.
    + by rewrite lookup_insert_ne, decide_cons_ne.
Qed.

(** ** [ensure] *)

Lemma add_missing_lookup (images : list ImageState)
    (tr : gmap string TransformState) k :
  foldl (λ acc img,
           match acc !! Types.id img with
           | Some _ => acc
           | None => <[Types.id img := identity]> acc
           end) tr images !! k =
    match tr !! k with
    | Some t => Some t
    | None => if decide (k ∈ ids images) then Some identity else None
    end.
Proof.
  unfold ids. revert tr.
  induction images as [|img images IH]; intros tr.
  - rewrite fmap_nil, decide_False by apply not_elem_of_nil.
    cbn [foldl]. by destruct (tr !! k).
  - rewrite fmap_cons. cbn [foldl]. rewrite IH.
    destruct (decide (k = Types.id img)) as [->|Hne].
    + destruct (tr !! Types.id img) as [t|] eqn:Ht.
      * by rewrite Ht.
      * rewrite lookup_insert_eq, decide_True; [done|].
        apply list_elem_of_here.
    + assert (Hk : (match tr !! Types.id img with
                    | Some _ => tr
                    | None => <[Types.id img := identity]> tr
                    end) !! k = tr !! k).
      { destruct (tr !! Types.id img); [done|].
        by rewrite lookup_insert_ne. }
      rewrite Hk. destruct (tr !! k); [done|].
      by rewrite decide_cons_ne.
Qed.

Lemma remove_stale_lookup (active : gset string) (keys : list string)
    (tr : gmap string TransformState) k :
  foldl (λ acc key, if decide (key ∈ active) then acc else delete key acc)
        tr keys !! k =
    if decide (k ∈ keys ∧ k ∉ active) then None else tr !! k.
Proof.
  revert tr. induction keys as [|key keys IH]; intros tr; cbn [foldl].
  - rewrite decide_False; [done|]. intros [H _]. by apply not_elem_of_nil in H.
  - rewrite IH. destruct (decide (k = key)) as [->|Hne].
    + destruct (decide (key ∈ active)) as [Hin|Hout].
      * rewrite (decide_False (P := _ ∈ keys ∧ _)) by (by intros [_ ?]).
        by rewrite (decide_False (P := _ ∈ _ :: _ ∧ _)) by (by intros [_ ?]).
      * rewrite lookup_delete_eq, (decide_True (P := _ ∈ _ :: _ ∧ _)).
        -- by destruct (decide (key ∈ keys ∧ key ∉ active)).
        -- split; [apply list_elem_of_here|done].
    + assert (Hk : (if decide (key ∈ active) then tr else delete key tr) !! k
                   = tr !! k).
      { destruct (decide (key ∈ active)); [done|].
        by rewrite lookup_delete_ne. }
      rewrite Hk. apply decide_ext. rewrite elem_of_cons.
      split; [intros [? ?]; split; [by right|done]|].
      by intros [[?|?] ?].
Qed.

Lemma elem_of_Object_keys (tr : gmap string TransformState) k :
  k ∈ Object_keys tr ↔ is_Some (tr !! k).
Proof.
  unfold Object_keys. rewrite list_elem_of_fmap. split.
  - intros [[k' t] [-> H]]. apply elem_of_map_to_list in H. by exists t.
  - intros [t H]. exists (k, t). split; [done|].
    by apply elem_of_map_to_list.
Qed.

Lemma ensure_lookup (images : list ImageState)
    (tr : gmap string TransformState) k :
  ensure images tr !! k =
    if decide (k ∈ ids images) then Some (default identity (tr !! k))
    else None.
Proof.
  unfold ensure. rewrite remove_stale_lookup, add_missing_lookup.
  fold (ids images).
  destruct (decide (k ∈ ids images)) as [Hin|Hout].
  - rewrite decide_False; [by destruct (tr !! k)|].
    intros [_ H]. apply H. by apply elem_of_list_to_set.
  - destruct (tr !! k) as [t|] eqn:Ht; [|by case_decide].
    rewrite decide_True; [done|]. split.
    + apply elem_of_Object_keys. rewrite add_missing_lookup, Ht. by eexists.
    + by rewrite elem_of_list_to_set.
Qed.

Lemma ensure_dom (images : list ImageState)
    (tr : gmap string TransformState) :
  dom (ensure images tr) = list_to_set (ids images).
Proof.
  apply set_eq. intros k.
  rewrite elem_of_dom, ensure_lookup, elem_of_list_to_set.
  case_decide; split; first [done | by eexists | by intros [? ?]].
Qed.

(** ** [moveAll] *)

Lemma moveAll_lookup dx dy (images : list ImageState)
    (tr : gmap string TransformState) :
  NoDup (ids images) →
  (∀ i, i ∈ ids images → is_Some (tr !! i)) →
  ∃ tr', moveAll dx dy images tr = Normal tr' ∧
    ∀ k, tr' !! k =
      if decide (k ∈ ids images) then moved dx dy <$> tr !! k else tr !! k.
Proof.
  unfold ids. revert tr.
  induction images as [|img images IH]; intros tr Hnd Hall.
  - exists tr. split; [done|]. intros k.
    rewrite fmap_nil, decide_False; [done|]. apply not_elem_of_nil.
  - rewrite fmap_cons in Hnd, Hall |- *. cbn [moveAll].
    apply NoDup_cons in Hnd as [Hfresh Hnd].
    destruct (Hall (Types.id img)) as [t Ht]; [apply list_elem_of_here|].
    rewrite Ht.
    destruct (IH (<[Types.id img := moved dx dy t]> tr) Hnd) as (tr' & Hrun & Hlk).
    { intros i Hi. rewrite lookup_insert. case_decide; [by eexists|].
      apply Hall. by apply list_elem_of_further. }
    exists tr'. split; [done|]. intros k. rewrite Hlk.
    destruct (decide (k = Types.id img)) as [->|Hne].
    + rewrite decide_False by done. rewrite lookup_insert_eq, Ht.
      rewrite decide_True; [done|]. apply list_elem_of_here.
    + by rewrite lookup_insert_ne, decide_cons_ne.
Qed.

End TableFacts.

(** * Reconciliation of the table with the tracked images *)

Module Reconciliation.

Import ComparisonViewer Spec TableFacts.

Lemma reconciled_lookup (images : list ImageState)
    (tr : gmap string TransformState) k :
  reconciled images tr → (is_Some (tr !! k) ↔ k ∈ ids images).
Proof.
  unfold reconciled. intros H.
  by rewrite <- elem_of_dom, H, elem_of_list_to_set.
Qed.

Lemma ids_handleRemove (id : string) (images : list ImageState) k :
  k ∈ ids (App.handleRemove id images) ↔ k ∈ ids images ∧ k ≠ id.
Proof.
  unfold ids, App.handleRemove. rewrite !list_elem_of_fmap. split.
  - intros (img & -> & H). apply list_elem_of_filter in H as [Hne Hin].
    split; [by exists img|done].
  - intros [(img & -> & Hin) Hne]. exists img. split; [done|].
    by apply list_elem_of_filter.
Qed.

(** C9: running the reconciliation twice with the same images gives the
    table of running it once; the keys of the reconciled table are exactly
    the identifiers of the images; an identifier that had no entry gets the
    identity transform, and one that had an entry keeps it. *)
Theorem ensure_idempotent (images : list ImageState)
    (tr : gmap string TransformState) :
  ensure images (ensure images tr) = ensure images tr
  ∧ dom (ensure images tr) = list_to_set (ids images)
  ∧ (∀ k, k ∈ ids images → tr !! k = None →
       ensure images tr !! k = Some identity)
  ∧ (∀ k t, k ∈ ids images → tr !! k = Some t →
       ensure images tr !! k = Some t).
Proof.
  split; [|split; [|split]].
  - apply map_eq. intros k. rewrite !ensure_lookup.
    by destruct (decide (k ∈ ids images)).
  - apply ensure_dom.
  - intros k Hin Hk. by rewrite ensure_lookup, decide_True, Hk.
  - intros k t Hin Hk. by rewrite ensure_lookup, decide_True, Hk.
Qed.

(** C10: on a reconciled table, removing an image and reconciling deletes
    the entry of that image and nothing else: every other key keeps its
    transform, and the keys are exactly the remaining identifiers. *)
Theorem remove_then_ensure (id : string) (images : list ImageState)
    (tr : gmap string TransformState) :
  reconciled images tr →
  ensure (App.handleRemove id images) tr = delete id tr
  ∧ reconciled (App.handleRemove id images)
               (ensure (App.handleRemove id images) tr)
  ∧ ensure (App.handleRemove id images) tr !! id = None
  ∧ (∀ k, k ≠ id → ensure (App.handleRemove id images) tr !! k = tr !! k).
Proof.
  intros Hrec.
  assert (Heq : ensure (App.handleRemove id images) tr = delete id tr).
  { apply map_eq. intros k. rewrite ensure_lookup.
    destruct (decide (k ∈ ids (App.handleRemove id images))) as [Hin|Hout].
    - apply ids_handleRemove in Hin as [Hin Hne].
      rewrite lookup_delete_ne by done.
      apply (reconciled_lookup _ _ _ Hrec) in Hin as [t ->]. done.
    - destruct (decide (k = id)) as [->|Hne]; [by rewrite lookup_delete_eq|].
      rewrite lookup_delete_ne by done. symmetry.
      apply eq_None_not_Some. intros Hk.
      apply (reconciled_lookup _ _ _ Hrec) in Hk.
      apply Hout, ids_handleRemove. done. }
  split; [done|]. split; [apply ensure_dom|]. rewrite Heq. split.
  - apply lookup_delete_eq.
  - intros k Hne. by apply lookup_delete_ne.
Qed.

(** Three images tracked, [imgB] removed: two entries remain, those of
    [imgA] and [imgC]. *)
Lemma remove_then_ensure_witness :
  reconciled [imgA; imgB; imgC] (ensure [imgA; imgB; imgC] ∅)
  ∧ size (ensure (App.handleRemove "imgB" [imgA; imgB; imgC])
                 (ensure [imgA; imgB; imgC] ∅)) = 2%nat
  ∧ ensure (App.handleRemove "imgB" [imgA; imgB; imgC])
           (ensure [imgA; imgB; imgC] ∅)
    = delete "imgB" (ensure [imgA; imgB; imgC] ∅).
Proof.
  split; [by vm_compute|]. split; [by vm_compute|].
  apply (remove_then_ensure "imgB" [imgA; imgB; imgC]
           (ensure [imgA; imgB; imgC] ∅)).
  by vm_compute.
Defined.

End Reconciliation.

(** * Fan-out of a mutation over the tracked images *)

Module FanOut.

Import ComparisonViewer Spec TableFacts.

Lemma referenceId_explicit images i :
  Js.truthy (Some i) = true → referenceId images (Some i) = Some i.
Proof. intros Hi. unfold referenceId, Js.or_else. by rewrite Hi. Qed.

Lemma applyTransformUpdate_all images isSynced targetId updater
    (tr : gmap string TransformState) rid r s :
  isSynced || negb (Js.truthy targetId) = true →
  referenceId images targetId = Some rid →
  Js.truthy (Some rid) = true →
  tr !! rid = Some r →
  updater (Some r) = Some s →
  applyTransformUpdate images isSynced targetId updater tr
    = Normal (assignAll images s tr).
Proof.
  intros Hall Href Hrid Hr Hs. unfold applyTransformUpdate.
  by rewrite Hall, Href, Hrid, Hr, Hs.
Qed.

Lemma applyTransformUpdate_one images updater
    (tr : gmap string TransformState) a :
  Js.truthy (Some a) = true →
  applyTransformUpdate images false (Some a) updater tr =
    match tr !! a with
    | Some prev =>
        match updater (Some prev) with
        | Some s => Normal (<[a := s]> tr)
        | None => Throws tr
        end
    | None => Normal tr
    end.
Proof. intros Ha. unfold applyTransformUpdate. by rewrite Ha. Qed.

Lemma assignAll_aligned images s (tr : gmap string TransformState) :
  aligned images (assignAll images s tr).
Proof.
  intros i j Hi Hj. by rewrite !assignAll_lookup, !decide_True.
Qed.

Lemma mutate_synced images m (tr : gmap string TransformState) rid r :
  is_pan m = false →
  referenceId images (target m) = Some rid →
  Js.truthy (Some rid) = true →
  tr !! rid = Some r →
  mutate images true m tr = Normal (assignAll images (updated m r) tr).
Proof.
  intros Hpan Href Hrid Hr.
  destruct m as [deltaY id|id direction|id|a dx dy]; try discriminate;
    simpl in *.
  - unfold handleWheel. by eapply applyTransformUpdate_all.
  - unfold handleZoomBtn. by eapply applyTransformUpdate_all.
  - done.
Qed.

Lemma mutate_synced_lookup images m (tr : gmap string TransformState) rid r :
  is_pan m = false →
  referenceId images (target m) = Some rid →
  Js.truthy (Some rid) = true →
  tr !! rid = Some r →
  ∀ img, img ∈ images →
    table_of (mutate images true m tr) !! Types.id img = Some (updated m r).
Proof.
  intros Hpan Href Hrid Hr img Hin.
  rewrite (mutate_synced images m tr rid r) by done. cbn [table_of].
  rewrite assignAll_lookup, decide_True; [done|]. by apply elem_of_ids.
Qed.

(** C1 (amended): in synced mode a wheel zoom, a button zoom or a reset
    computes the new transform once, from the reference transform (the one
    of the explicit target, else of the first tracked image), and stores
    that same transform for every tracked image, so that all tracked images
    end with identical transforms. *)
Theorem synced_zoom_reset_copies_reference images m
    (tr : gmap string TransformState) rid r :
  is_pan m = false →
  referenceId images (target m) = Some rid →
  Js.truthy (Some rid) = true →
  tr !! rid = Some r →
  mutate images true m tr = Normal (assignAll images (updated m r) tr)
  ∧ (∀ img, img ∈ images →
       table_of (mutate images true m tr) !! Types.id img
         = Some (updated m r))
  ∧ aligned images (table_of (mutate images true m tr)).
Proof.
  intros Hpan Href Hrid Hr.
  split; [by apply (mutate_synced images m tr rid r)|].
  split; [by apply (mutate_synced_lookup images m tr rid r)|].
  rewrite (mutate_synced images m tr rid r) by done.
  apply assignAll_aligned.
Qed.

Lemma synced_zoom_reset_copies_reference_witness :
  mutate [imgA; imgB] true (Wheel (lit (-10)) "imgB") offset2
    = Normal (assignAll [imgA; imgB]
                (mkTransformState (lit 5) (lit (-3)) (lit 1.01)) offset2)
  ∧ aligned [imgA; imgB]
      (table_of (mutate [imgA; imgB] true (Wheel (lit (-10)) "imgB") offset2)).
Proof.
  destruct (synced_zoom_reset_copies_reference [imgA; imgB]
              (Wheel (lit (-10)) "imgB") offset2 "imgB"
              (mkTransformState (lit 5) (lit (-3)) (lit 1)))
    as (H1 & _ & H3); [reflexivity|reflexivity|reflexivity|by vm_compute|].
  split; [|exact H3]. rewrite H1. by vm_compute.
Defined.

(** C1, as stated, fails for the pan step: with [imgB] at offset [(5, -3)]
    and [imgA] at the origin, a synced pointer move by [(1, 1)] puts [imgA]
    at [(1, 1)] and [imgB] at [(6, -2)]: the two transforms differ. *)
Lemma synced_pan_not_aligned :
  table_of (mutate [imgA; imgB] true
              (PanStep (Some "imgA") (lit 1) (lit 1)) offset2)
  = <["imgA" := mkTransformState (lit 1) (lit 1) (lit 1)]>
      (<["imgB" := mkTransformState (lit 6) (lit (-2)) (lit 1)]> ∅)
  ∧ ¬ aligned [imgA; imgB]
        (table_of (mutate [imgA; imgB] true
                     (PanStep (Some "imgA") (lit 1) (lit 1)) offset2)).
Proof.
  split; [by vm_compute|].
  intros H. specialize (H "imgA" "imgB").
  assert (Ha : "imgA" ∈ ids [imgA; imgB]) by (apply list_elem_of_here).
  assert (Hb : "imgB" ∈ ids [imgA; imgB])
    by (apply list_elem_of_further, list_elem_of_here).
  specialize (H Ha Hb). vm_compute in H. discriminate.
Qed.

(** C2 (amended): in independent mode a zoom button pressed with no target
    (the toolbar) does nothing when no image is tracked; otherwise it
    computes the new transform from the transform of the first tracked image
    and stores it for every tracked image, as in synced mode. *)
Theorem global_zoom_independent direction
    (tr : gmap string TransformState) :
  handleZoomBtn [] false None direction tr = Normal tr
  ∧ ∀ first rest r,
      Js.truthy (Some (Types.id first)) = true →
      tr !! Types.id first = Some r →
      handleZoomBtn (first :: rest) false None direction tr
        = Normal (assignAll (first :: rest)
                    (updated (ZoomBtn None direction) r) tr)
      ∧ ∀ img, img ∈ first :: rest →
          table_of (handleZoomBtn (first :: rest) false None direction tr)
            !! Types.id img
          = Some (updated (ZoomBtn None direction) r).
Proof.
  split; [done|]. intros first rest r Hid Hr.
  assert (Hrun : handleZoomBtn (first :: rest) false None direction tr
                 = Normal (assignAll (first :: rest)
                             (updated (ZoomBtn None direction) r) tr)).
  { unfold handleZoomBtn.
    by apply (applyTransformUpdate_all _ _ _ _ _ (Types.id first) r). }
  split; [done|]. intros img Hin. rewrite Hrun. cbn [table_of].
  rewrite assignAll_lookup, decide_True; [done|]. by apply elem_of_ids.
Qed.

Lemma global_zoom_independent_witness :
  handleZoomBtn [imgA; imgB] false None dir_in offset2
  = Normal (assignAll [imgA; imgB]
              (mkTransformState (lit 0) (lit 0) (lit 1.25)) offset2).
Proof.
  destruct (global_zoom_independent dir_in offset2) as [_ H].
  destruct (H imgA [imgB] identity) as [H1 _];
    [reflexivity|by vm_compute|].
  rewrite H1. by vm_compute.
Defined.

(** C2, as stated, fails: the toolbar zoom-in in independent mode takes
    the scale of [imgB] to 1.25 too, not that of the first image alone. *)
Lemma global_zoom_independent_changes_all :
  scale_at "imgB" fresh2 = Some (lit 1)
  ∧ scale_at "imgB"
      (table_of (handleZoomBtn [imgA; imgB] false None dir_in fresh2))
    = Some (lit 1.25)
  ∧ ¬ changes_only "imgA" fresh2
        (table_of (handleZoomBtn [imgA; imgB] false None dir_in fresh2)).
Proof.
  split; [by vm_compute|]. split; [by vm_compute|].
  intros H. specialize (H "imgB"). vm_compute in H.
  assert (Hne : "imgB" ≠ "imgA") by discriminate.
  specialize (H Hne). discriminate.
Qed.

(** ** Independent mode with an explicit target *)

Lemma mutate_independent images m (tr : gmap string TransformState) a :
  target m = Some a →
  Js.truthy (Some a) = true →
  table_of (mutate images false m tr) =
    match m with
    | Reset _ => <[a := identity]> tr
    | _ =>
        match tr !! a with
        | Some t => <[a := updated m t]> tr
        | None => tr
        end
    end.
Proof.
  intros Ht Ha.
  destruct m as [deltaY id|id direction|id|act dx dy];
    cbn [target] in Ht; simplify_eq.
  - simpl. unfold handleWheel. rewrite applyTransformUpdate_one by done.
    by destruct (tr !! a).
  - simpl. unfold handleZoomBtn. rewrite applyTransformUpdate_one by done.
    by destruct (tr !! a).
  - simpl. unfold handleReset. by rewrite Ha.
  - simpl. unfold handleMouseMove. rewrite Ha. simpl.
    by destruct (tr !! a).
Qed.

(** C6: in independent mode a zoom, a pan step or a reset with the explicit
    target [a] leaves the transform of every other image [b] as it was; and
    a pan of [a] by [(5, -3)] from the identity gives [a] the transform
    [{x: 5, y: -3, scale: 1}]. *)
Theorem independent_mutation_frame images m
    (tr : gmap string TransformState) a b :
  target m = Some a →
  Js.truthy (Some a) = true →
  b ≠ a →
  table_of (mutate images false m tr) !! b = tr !! b
  ∧ (tr !! a = Some identity →
     table_of (mutate images false (PanStep (Some a) (lit 5) (lit (-3))) tr)
       !! a = Some (mkTransformState (lit 5) (lit (-3)) (lit 1))).
Proof.
  intros Ht Ha Hne. split.
  - rewrite (mutate_independent images m tr a) by done.
    destruct m; try (by rewrite lookup_insert_ne);
      (destruct (tr !! a); [by rewrite lookup_insert_ne|done]).
  - intros Hid.
    rewrite (mutate_independent images _ tr a) by done.
    rewrite Hid, lookup_insert_eq. by vm_compute.
Qed.

Lemma independent_mutation_frame_witness :
  table_of (mutate [imgA; imgB] false
              (PanStep (Some "imgA") (lit 5) (lit (-3))) fresh2) !! "imgB"
    = Some identity
  ∧ table_of (mutate [imgA; imgB] false
                (PanStep (Some "imgA") (lit 5) (lit (-3))) fresh2) !! "imgA"
    = Some (mkTransformState (lit 5) (lit (-3)) (lit 1)).
Proof.
  destruct (independent_mutation_frame [imgA; imgB]
              (PanStep (Some "imgA") (lit 5) (lit (-3))) fresh2
              "imgA" "imgB") as [H1 H2];
    [reflexivity|reflexivity|discriminate|].
  split; [rewrite H1; by vm_compute|apply H2; by vm_compute].
Defined.

(** ** Reset *)

(** C7 (amended): a reset in synced mode, or with no target, sets the
    transform of every tracked image to the identity; a reset in
    independent mode with the explicit target [a] sets the transform of [a]
    to the identity and leaves every other entry as it was. *)
Theorem reset_effect images isSynced id
    (tr : gmap string TransformState) :
  (isSynced || negb (Js.truthy id) = true →
     all_identity images (handleReset images isSynced id tr))
  ∧ (∀ a, isSynced = false → id = Some a → Js.truthy id = true →
       handleReset images isSynced id tr = <[a := identity]> tr
       ∧ changes_only a tr (handleReset images isSynced id tr)).
Proof.
  split.
  - intros Hall img Hin. unfold handleReset. rewrite Hall.
    rewrite assignAll_lookup, decide_True; [done|]. by apply elem_of_ids.
  - intros a -> -> Ha. unfold handleReset. rewrite Ha. simpl.
    split; [done|]. intros k Hne. by rewrite lookup_insert_ne.
Qed.

Lemma reset_effect_witness :
  all_identity [imgA; imgB] (handleReset [imgA; imgB] false None offset2)
  ∧ handleReset [imgA; imgB] false (Some "imgB") offset2
    = <["imgB" := identity]> offset2.
Proof.
  split.
  - by apply (reset_effect [imgA; imgB] false None offset2).
  - by apply (reset_effect [imgA; imgB] false (Some "imgB") offset2).
Defined.

(** C7, as stated, fails: in independent mode a reset of [imgA] leaves
    [imgB] at its offset [(5, -3)]. *)
Lemma independent_reset_keeps_others :
  handleReset [imgA; imgB] false (Some "imgA") offset2 !! "imgB"
  = Some (mkTransformState (lit 5) (lit (-3)) (lit 1))
  ∧ ¬ all_identity [imgA; imgB]
        (handleReset [imgA; imgB] false (Some "imgA") offset2).
Proof.
  split; [by vm_compute|].
  intros H. specialize (H imgB).
  assert (Hb : imgB ∈ [imgA; imgB])
    by (apply list_elem_of_further, list_elem_of_here).
  specialize (H Hb). vm_compute in H. discriminate.
Qed.

End FanOut.

(** * Panning *)

Module Pan.

Import ComparisonViewer Spec TableFacts.

Lemma exact_add_difference a b d :
  exact_add a d → exact_add b d →
  (value (add a d) - value (add b d) == value a - value b)%Q.
Proof.
  intros (_ & _ & _ & Ha) (_ & _ & _ & Hb). rewrite Ha, Hb. ring.
Qed.

(** C5 (amended): a synced pointer move by [(dx, dy)] during a drag gives
    every tracked image its own previous offset plus [(dx, dy)] and leaves
    its scale as it was; the difference between the offsets of two tracked
    images is preserved whenever the additions are exact. *)
Theorem synced_pan_step images a dx dy (tr : gmap string TransformState) :
  NoDup (ids images) →
  Forall (λ i, is_Some (tr !! i)) (ids images) →
  Js.truthy a = true →
  ∃ tr', handleMouseMove images true true a dx dy tr = Normal tr'
    ∧ (∀ i t, i ∈ ids images → tr !! i = Some t →
         tr' !! i = Some (mkTransformState (add (Types.x t) dx)
                            (add (Types.y t) dy) (Types.scale t)))
    ∧ (∀ i j ti tj, i ∈ ids images → j ∈ ids images →
         tr !! i = Some ti → tr !! j = Some tj →
         ∃ ti' tj', tr' !! i = Some ti' ∧ tr' !! j = Some tj'
           ∧ (exact_add (Types.x ti) dx → exact_add (Types.x tj) dx →
                value (Types.x ti') - value (Types.x tj')
                == value (Types.x ti) - value (Types.x tj))%Q
           ∧ (exact_add (Types.y ti) dy → exact_add (Types.y tj) dy →
                value (Types.y ti') - value (Types.y tj')
                == value (Types.y ti) - value (Types.y tj))%Q).
Proof.
  intros Hnd Hall Ha. rewrite Forall_forall in Hall.
  destruct (moveAll_lookup dx dy images tr Hnd Hall) as (tr' & Hrun & Hlk).
  exists tr'. unfold handleMouseMove. rewrite Ha. cbn [negb orb].
  split; [done|].
  assert (Hstep : ∀ i t, i ∈ ids images → tr !! i = Some t →
            tr' !! i = Some (moved dx dy t)).
  { intros i t Hi Ht. by rewrite Hlk, decide_True, Ht. }
  split; [exact Hstep|].
  intros i j ti tj Hi Hj Hti Htj.
  exists (moved dx dy ti), (moved dx dy tj).
  split; [by apply Hstep|]. split; [by apply Hstep|].
  split; intros; by apply exact_add_difference.
Qed.

Lemma synced_pan_step_witness :
  ∃ tr', handleMouseMove [imgA; imgB] true true (Some "imgA") (lit 1) (lit 1)
           offset2 = Normal tr'
    ∧ tr' !! "imgA" = Some (mkTransformState (lit 1) (lit 1) (lit 1))
    ∧ tr' !! "imgB" = Some (mkTransformState (lit 6) (lit (-2)) (lit 1))
    ∧ ∃ tb' ta', tr' !! "imgB" = Some tb' ∧ tr' !! "imgA" = Some ta'
        ∧ (value (Types.x tb') - value (Types.x ta')
           == value (lit 5) - value (lit 0))%Q.
Proof.
  destruct (synced_pan_step [imgA; imgB] (Some "imgA") (lit 1) (lit 1)
              offset2) as (tr' & Hrun & Hstep & Hdiff).
  - apply (bool_decide_unpack _). by vm_compute.
  - apply (bool_decide_unpack _). by vm_compute.
  - reflexivity.
  - assert (Ha : "imgA" ∈ ids [imgA; imgB]) by apply list_elem_of_here.
    assert (Hb : "imgB" ∈ ids [imgA; imgB])
      by apply list_elem_of_further, list_elem_of_here.
    exists tr'. split; [exact Hrun|]. split; [|split].
    + by rewrite (Hstep "imgA" identity Ha).
    + by rewrite (Hstep "imgB" (mkTransformState (lit 5) (lit (-3)) (lit 1))
                    Hb).
    + destruct (Hdiff "imgB" "imgA"
                  (mkTransformState (lit 5) (lit (-3)) (lit 1)) identity)
        as (tb' & ta' & Htb & Hta & Hx & _); [done..|].
      exists tb', ta'. split; [done|]. split; [done|].
      apply Hx; repeat split; by vm_compute.
Defined.

(** C5, as stated, fails in its last part: with [imgA] at [x = 0.1] and
    [imgB] at [x = 0], a synced pointer move by [dx = 0.2] puts them at
    [0.30000000000000004] and [0.2], and the difference of the two offsets
    goes from [0.1] to [0.10000000000000003], both as [a.x - b.x] computes
    it and as a rational. *)
Lemma synced_pan_difference_changes :
  offset_difference nudged2 "imgA" "imgB" = Some (lit 0.1, lit 0)
  ∧ offset_difference
      (table_of (handleMouseMove [imgA; imgB] true true (Some "imgA")
                   (lit 0.2) (lit 0) nudged2)) "imgA" "imgB"
    = Some (lit 0.10000000000000003, lit 0)
  ∧ offset_difference
      (table_of (handleMouseMove [imgA; imgB] true true (Some "imgA")
                   (lit 0.2) (lit 0) nudged2)) "imgA" "imgB"
    ≠ offset_difference nudged2 "imgA" "imgB"
  ∧ ¬ (value (add (lit 0.1) (lit 0.2)) - value (add (lit 0) (lit 0.2))
       == value (lit 0.1) - value (lit 0))%Q.
Proof.
  split; [by vm_compute|]. split; [by vm_compute|]. split.
  - vm_compute. discriminate.
  - vm_compute. discriminate.
Qed.

End Pan.

(** * Zooming *)

Module Zoom.

Import ComparisonViewer Spec NumberFacts TableFacts FanOut.

(** ** The scale stays in [[0.1, 20]] *)

Lemma wheelStep_in_range s deltaY :
  in_range s = true → is_nan deltaY = false →
  in_range (wheelStep s deltaY) = true.
Proof.
  intros Hs Hd. apply clampScale_in_range, add_not_nan.
  - by apply in_range_finite in Hs as (sg & m & e & ->).
  - change (neg ZOOM_SPEED) with (S754_finite true 4611686018427388 (-62)).
    by apply mul_not_nan.
Qed.

Lemma zoomFactor_in_range s direction :
  in_range s = true →
  in_range (clampScale (mul s (zoomFactor direction))) = true.
Proof.
  intros Hs. apply clampScale_in_range.
  apply in_range_finite in Hs as (sg & m & e & ->).
  destruct direction.
  - change (zoomFactor dir_in) with (S754_finite false 5629499534213120 (-52)).
    by apply mul_not_nan.
  - change (zoomFactor dir_out)
      with (S754_finite false 7205759403792794 (-53)).
    by apply mul_not_nan.
Qed.

Lemma updated_in_range m r :
  delta_ok m = true → in_range (Types.scale r) = true →
  in_range (Types.scale (updated m r)) = true.
Proof.
  intros Hm Hr. destruct m as [deltaY id|id direction|id|a dx dy]; simpl.
  - apply wheelStep_in_range; [done|]. simpl in Hm.
    by apply negb_true_iff in Hm.
  - by apply zoomFactor_in_range.
  - by vm_compute.
  - done.
Qed.

Lemma assignAll_in_range images s (tr : gmap string TransformState) :
  in_range (Types.scale s) = true → scales_in_range tr →
  scales_in_range (assignAll images s tr).
Proof.
  intros Hs Htr. apply map_Forall_lookup. intros k t.
  rewrite assignAll_lookup. case_decide; [by intros [= <-]|].
  intros Hk. by apply (map_Forall_lookup_1 _ _ _ _ Htr Hk).
Qed.

Lemma applyTransformUpdate_in_range images isSynced targetId updater
    (tr : gmap string TransformState) :
  updater None = None →
  (∀ r s, in_range (Types.scale r) = true → updater (Some r) = Some s →
          in_range (Types.scale s) = true) →
  scales_in_range tr →
  scales_in_range
    (table_of (applyTransformUpdate images isSynced targetId updater tr)).
Proof.
  intros Hnone Hupd Htr. unfold applyTransformUpdate.
  destruct (isSynced || negb (Js.truthy targetId)).
  - destruct (referenceId images targetId) as [rid|]; [|done].
    destruct (negb _); [done|].
    destruct (tr !! rid) as [r|] eqn:Hr; [|by rewrite Hnone].
    destruct (updater (Some r)) as [s|] eqn:Hs; [|done].
    apply assignAll_in_range; [|done]. apply (Hupd r s); [|done].
    by apply (map_Forall_lookup_1 _ _ _ _ Htr Hr).
  - destruct targetId as [tid|]; [|done].
    destruct (tr !! tid) as [prev|] eqn:Hp; [|done].
    destruct (updater (Some prev)) as [s|] eqn:Hs; [|done].
    apply map_Forall_insert_2; [|done]. apply (Hupd prev s); [|done].
    by apply (map_Forall_lookup_1 _ _ _ _ Htr Hp).
Qed.

Lemma moveAll_in_range dx dy images (tr : gmap string TransformState) :
  scales_in_range tr → scales_in_range (table_of (moveAll dx dy images tr)).
Proof.
  revert tr. induction images as [|img images IH]; intros tr Htr; [done|].
  cbn [moveAll]. destruct (tr !! Types.id img) as [t|] eqn:Ht; [|done].
  apply IH, map_Forall_insert_2; [|done].
  by apply (map_Forall_lookup_1 _ _ _ _ Htr Ht).
Qed.

Lemma mutate_in_range images isSynced m (tr : gmap string TransformState) :
  delta_ok m = true → scales_in_range tr →
  scales_in_range (table_of (mutate images isSynced m tr)).
Proof.
  intros Hm Htr. destruct m as [deltaY id|id direction|id|a dx dy].
  - apply applyTransformUpdate_in_range; [done| |done].
    intros r s Hr [= <-]. by apply (updated_in_range (Wheel deltaY id)).
  - apply applyTransformUpdate_in_range; [done| |done].
    intros r s Hr [= <-]. by apply (updated_in_range (ZoomBtn id direction)).
  - cbn [mutate table_of]. unfold handleReset.
    destruct (isSynced || negb (Js.truthy id)).
    + by apply assignAll_in_range.
    + destruct id as [i|]; [|done]. by apply map_Forall_insert_2.
  - cbn [mutate]. unfold handleMouseMove.
    destruct (negb true || negb (Js.truthy a)); [done|].
    destruct isSynced; [by apply moveAll_in_range|].
    destruct a as [targetId|]; [|done].
    destruct (tr !! targetId) as [t|] eqn:Ht; [|done].
    apply map_Forall_insert_2; [|done].
    by apply (map_Forall_lookup_1 _ _ _ _ Htr Ht).
Qed.

Lemma run_in_range images ops (tr : gmap string TransformState) :
  Forall (λ op, delta_ok op.2 = true) ops →
  scales_in_range tr → scales_in_range (run images ops tr).
Proof.
  unfold run. revert tr.
  induction ops as [|[synced m] ops IH]; intros tr Hops Htr; [done|].
  apply Forall_cons in Hops as [Hm Hops]. cbn [foldl].
  apply IH; [done|]. by apply mutate_in_range.
Qed.

(** C4: whatever the tracked images, after any finite sequence of zoom
    operations (wheel events, whose [deltaY] is a number other than NaN, and
    zoom-in or zoom-out buttons of a tile or of the toolbar), each under
    either sync mode, the scale of every entry of the table, so of every
    tracked image, lies in [[0.1, 20]], when every scale starts at 1. *)
Theorem zoom_sequence_scale_in_range images ops
    (tr : gmap string TransformState) :
  Forall (λ op, is_zoom op.2 = true ∧ delta_ok op.2 = true) ops →
  map_Forall (λ _ t, Types.scale t = lit 1) tr →
  ∀ img t, img ∈ images →
    run images ops tr !! Types.id img = Some t →
    in_range (Types.scale t) = true.
Proof.
  intros Hops Hone img t _ Ht.
  assert (Hrun : scales_in_range (run images ops tr)).
  { apply run_in_range.
    - eapply Forall_impl; [exact Hops|]. by intros op [_ ?].
    - eapply map_Forall_impl; [exact Hone|].
      intros k t' Hk. cbn beta in Hk. by rewrite Hk. }
  by apply (map_Forall_lookup_1 _ _ _ _ Hrun Ht).
Qed.

Lemma zoom_sequence_scale_in_range_witness :
  ∃ t, run [imgA; imgB] zooms3 fresh2 !! "imgB" = Some t
    ∧ Types.scale t = lit 20
    ∧ in_range (Types.scale t) = true.
Proof.
  eexists. split; [by vm_compute|]. split; [by vm_compute|].
  apply (zoom_sequence_scale_in_range [imgA; imgB] zooms3 fresh2)
    with (img := imgB).
  - apply (bool_decide_unpack _). by vm_compute.
  - apply (bool_decide_unpack _). by vm_compute.
  - apply list_elem_of_further, list_elem_of_here.
  - by vm_compute.
Defined.

(** ** The wheel scenario *)

(** C8: with two tracked images, both at scale 1, in synced mode, a wheel
    event on the first with [deltaY = -10] leaves both at the scale
    [max(0.1, 1 + (-10 * -0.001))], which is [1.01]. *)
Theorem synced_wheel_scenario (a b : ImageState) ta tb
    (tr : gmap string TransformState) :
  Js.truthy (Some (Types.id a)) = true →
  tr !! Types.id a = Some ta → tr !! Types.id b = Some tb →
  Types.scale ta = lit 1 → Types.scale tb = lit 1 →
  scale_at (Types.id a)
    (table_of (handleWheel [a; b] true (lit (-10)) (Types.id a) tr))
    = Some (lit 1.01)
  ∧ scale_at (Types.id b)
      (table_of (handleWheel [a; b] true (lit (-10)) (Types.id a) tr))
    = Some (lit 1.01)
  ∧ Math_max (lit 0.1) (add (lit 1) (mul (lit (-10)) (lit (-0.001))))
    = lit 1.01.
Proof.
  intros Ha Hta Htb Hsa Hsb.
  pose proof (mutate_synced_lookup [a; b] (Wheel (lit (-10)) (Types.id a))
                tr (Types.id a) ta eq_refl
                (referenceId_explicit _ _ Ha) Ha Hta) as Hall.
  cbn [mutate] in Hall. unfold scale_at.
  rewrite (Hall a), (Hall b);
    [|apply list_elem_of_further, list_elem_of_here|apply list_elem_of_here].
  cbn [updated fmap option_fmap option_map Types.scale]. rewrite Hsa.
  split; [by vm_compute|]. split; by vm_compute.
Qed.

Lemma synced_wheel_scenario_witness :
  scale_at "imgA"
    (table_of (handleWheel [imgA; imgB] true (lit (-10)) "imgA" fresh2))
    = Some (lit 1.01)
  ∧ scale_at "imgB"
      (table_of (handleWheel [imgA; imgB] true (lit (-10)) "imgA" fresh2))
    = Some (lit 1.01).
Proof.
  destruct (synced_wheel_scenario imgA imgB identity identity fresh2)
    as (H1 & H2 & _); [reflexivity|by vm_compute..|].
  split; [exact H1|exact H2].
Defined.

(** ** Successive wheel events *)

Lemma wheel_lookup images isSynced deltaY id
    (tr : gmap string TransformState) t :
  Js.truthy (Some id) = true → id ∈ ids images → tr !! id = Some t →
  table_of (mutate images isSynced (Wheel deltaY id) tr) !! id
  = Some (mkTransformState (Types.x t) (Types.y t)
            (wheelStep (Types.scale t) deltaY)).
Proof.
  intros Hid Hin Ht. destruct isSynced.
  - rewrite (mutate_synced images _ tr id t); try done.
    + cbn [table_of]. by rewrite assignAll_lookup, decide_True.
    + by apply referenceId_explicit.
  - rewrite (mutate_independent images _ tr id) by done.
    by rewrite Ht, lookup_insert_eq.
Qed.

(** Successive wheel events on a tile iterate the step of one event over
    their deltas, from left to right. *)
Lemma run_wheels_lookup images isSynced id deltas
    (tr : gmap string TransformState) t :
  Js.truthy (Some id) = true → id ∈ ids images → tr !! id = Some t →
  run images (wheels isSynced id deltas) tr !! id
  = Some (mkTransformState (Types.x t) (Types.y t)
            (foldl wheelStep (Types.scale t) deltas)).
Proof.
  intros Hid Hin. unfold run, wheels. revert tr t.
  induction deltas as [|deltaY deltas IH]; intros tr t Ht.
  - by destruct t.
  - rewrite fmap_cons. cbn [foldl fst snd].
    by rewrite (IH _ _ (wheel_lookup images isSynced deltaY id tr t Hid Hin Ht)).
Qed.

(** C3, as stated, fails: from scale 1, two wheel events of [deltaY = -100]
    give [1.2000000000000002] where one event of [deltaY = -200] gives
    [1.2], the sum [1.1 + 0.1] being rounded. *)
Lemma wheel_split_differs :
  scale_at "imgA"
    (run [imgA; imgB] (wheels true "imgA" [lit (-100); lit (-100)]) fresh2)
  = Some (lit 1.2000000000000002)
  ∧ scale_at "imgA"
      (run [imgA; imgB] (wheels true "imgA" [lit (-200)]) fresh2)
    = Some (lit 1.2)
  ∧ ¬ split_agrees [imgA; imgB] true "imgA" fresh2 (lit (-100)) (lit (-100)).
Proof.
  repeat split; try (by vm_compute); intros H; vm_compute in H; discriminate.
Qed.

End Zoom.

(** * Membership changes: loading, removing and clearing images *)

Module Membership.

Import ComparisonViewer Spec TableFacts Reconciliation.

Lemma handleRemove_absent (a : string) (images : list ImageState) :
  a ∉ ids images → App.handleRemove a images = images.
Proof.
  unfold App.handleRemove, ids.
  induction images as [|img images IH]; intros Hout; [done|].
  rewrite fmap_cons in Hout. apply not_elem_of_cons in Hout as [Hne Hout].
  rewrite filter_cons_True by done. by rewrite IH.
Qed.

Lemma ids_imageLoaded uuid src file width height images :
  ids (App.imageLoaded uuid src file width height images)
  = ids images ++ [uuid].
Proof. unfold ids, App.imageLoaded. by rewrite fmap_app. Qed.

(** X1: The tables the reconciliation leaves as they are are exactly those
    whose keys are the identifiers of the images. *)
Theorem ensure_fixpoint (images : list ImageState)
    (tr : gmap string TransformState) :
  ensure images tr = tr ↔ reconciled images tr.
Proof.
  split.
  - intros H. unfold reconciled. rewrite <- H at 1. apply ensure_dom.
  - intros Hrec. apply map_eq. intros k. rewrite ensure_lookup.
    destruct (decide (k ∈ ids images)) as [Hin|Hout].
    + apply (reconciled_lookup _ _ _ Hrec) in Hin as [t ->]. done.
    + symmetry. apply eq_None_not_Some. intros Hk.
      by apply Hout, (reconciled_lookup _ _ _ Hrec).
Qed.

(** X2: The reconciled table depends on the set of identifiers only: neither
    the order of the images nor a repeated image matters. *)
Theorem ensure_set_of_ids (images1 images2 : list ImageState)
    (tr : gmap string TransformState) :
  list_to_set (C := gset string) (ids images1) = list_to_set (ids images2) →
  ensure images1 tr = ensure images2 tr.
Proof.
  intros Hset. apply map_eq. intros k. rewrite !ensure_lookup.
  apply decide_ext.
  by rewrite <- !(elem_of_list_to_set (C := gset string)), Hset.
Qed.

Lemma ensure_set_of_ids_witness :
  ensure [imgA; imgB] offset2 = ensure [imgB; imgA; imgB] offset2.
Proof.
  apply (ensure_set_of_ids [imgA; imgB] [imgB; imgA; imgB] offset2).
  by vm_compute.
Defined.

Lemma ensure_imageLoaded uuid src file width height
    (images : list ImageState) (tr : gmap string TransformState) :
  reconciled images tr →
  uuid ∉ ids images →
  ensure (App.imageLoaded uuid src file width height images) tr
    = <[uuid := identity]> tr.
Proof.
  intros Hrec Hfresh.
  apply map_eq. intros k. rewrite ensure_lookup, ids_imageLoaded.
  destruct (decide (k = uuid)) as [->|Hne].
  - rewrite lookup_insert_eq, decide_True.
    + destruct (tr !! uuid) as [t|] eqn:Ht; [|done].
      exfalso. apply Hfresh, (reconciled_lookup _ _ _ Hrec). by eexists.
    + apply elem_of_app. right. apply list_elem_of_here.
  - rewrite lookup_insert_ne by done.
    destruct (decide (k ∈ ids images ++ [uuid])) as [Hin|Hout].
    + apply elem_of_app in Hin as [Hin|Hin].
      * apply (reconciled_lookup _ _ _ Hrec) in Hin as [t ->]. done.
      * apply list_elem_of_singleton in Hin. done.
    + symmetry. apply eq_None_not_Some. intros Hk.
      apply Hout, elem_of_app. left.
      by apply (reconciled_lookup _ _ _ Hrec).
Qed.

(** X3: Once a file is loaded under a new identifier, the reconciliation adds
    the identity transform for it and leaves every other entry as it was;
    the table is reconciled again. *)
Theorem load_then_ensure uuid src file width height
    (images : list ImageState) (tr : gmap string TransformState) :
  reconciled images tr →
  uuid ∉ ids images →
  ensure (App.imageLoaded uuid src file width height images) tr
    = <[uuid := identity]> tr
  ∧ reconciled (App.imageLoaded uuid src file width height images)
               (<[uuid := identity]> tr).
Proof.
  intros Hrec Hfresh.
  pose proof (ensure_imageLoaded uuid src file width height images tr
                Hrec Hfresh) as Heq.
  split; [done|]. rewrite <- Heq. apply ensure_dom.
Qed.

Lemma load_then_ensure_witness :
  ensure (App.imageLoaded "imgC" "blob:c"
            (App.mkFileInfo "image/png" "c.png" (lit 2048))
            (lit 640) (lit 480) [imgA; imgB]) offset2
  = <["imgC" := identity]> offset2.
Proof.
  apply (load_then_ensure "imgC" "blob:c"
           (App.mkFileInfo "image/png" "c.png" (lit 2048))
           (lit 640) (lit 480) [imgA; imgB] offset2).
  - by vm_compute.
  - apply (bool_decide_unpack _). by vm_compute.
Defined.

(** X4: Loading an image under a new identifier and removing it again gives
    back the list of images and, after the two reconciliations, the
    table. *)
Theorem load_remove_round_trip uuid src file width height
    (images : list ImageState) (tr : gmap string TransformState) :
  reconciled images tr →
  uuid ∉ ids images →
  App.handleRemove uuid (App.imageLoaded uuid src file width height images)
    = images
  ∧ ensure (App.handleRemove uuid
              (App.imageLoaded uuid src file width height images))
           (ensure (App.imageLoaded uuid src file width height images) tr)
    = tr.
Proof.
  intros Hrec Hfresh.
  assert (Hrm : App.handleRemove uuid
                  (App.imageLoaded uuid src file width height images)
                = images).
  { rewrite <- (handleRemove_absent uuid images Hfresh) at 2.
    unfold App.handleRemove, App.imageLoaded.
    rewrite filter_app, filter_cons_False, filter_nil, app_nil_r;
      [done|by intros ?]. }
  split; [done|]. rewrite Hrm.
  rewrite (ensure_imageLoaded uuid src file width height images tr
             Hrec Hfresh).
  apply map_eq. intros k. rewrite ensure_lookup.
  destruct (decide (k ∈ ids images)) as [Hin|Hout].
  - assert (Hne : uuid ≠ k) by (by intros ->).
    rewrite lookup_insert_ne by done.
    apply (reconciled_lookup _ _ _ Hrec) in Hin as [t ->]. done.
  - symmetry. apply eq_None_not_Some. intros Hk.
    by apply Hout, (reconciled_lookup _ _ _ Hrec).
Qed.

Lemma load_remove_round_trip_witness :
  ensure (App.handleRemove "imgC"
            (App.imageLoaded "imgC" "blob:c"
               (App.mkFileInfo "image/png" "c.png" (lit 2048))
               (lit 640) (lit 480) [imgA; imgB]))
         (ensure (App.imageLoaded "imgC" "blob:c"
                    (App.mkFileInfo "image/png" "c.png" (lit 2048))
                    (lit 640) (lit 480) [imgA; imgB]) offset2)
  = offset2.
Proof.
  apply (load_remove_round_trip "imgC" "blob:c"
           (App.mkFileInfo "image/png" "c.png" (lit 2048))
           (lit 640) (lit 480) [imgA; imgB] offset2).
  - by vm_compute.
  - apply (bool_decide_unpack _). by vm_compute.
Defined.

(** X5: A confirmed [clearAll] unmounts the viewer, so that its table is
    dropped, not reconciled; the first image loaded afterwards mounts a new
    viewer, which tracks that image alone, at the identity transform,
    whatever the table held before the clearing. *)
Theorem clearAll_unmounts (st : App.AppState)
    (viewer : option (gmap string TransformState))
    (uuid src : string) (file : App.FileInfo) (width height : number) :
  App.render (App.images (App.clearAll true st)) viewer = None
  ∧ App.render
      (App.imageLoaded uuid src file width height
         (App.images (App.clearAll true st)))
      (App.render (App.images (App.clearAll true st)) viewer)
    = Some {[uuid := identity]}.
Proof.
  split; [done|]. cbn. f_equal. apply map_eq. intros k.
  rewrite ensure_lookup, lookup_empty. cbn.
  destruct (decide (k = uuid)) as [->|Hne].
  - by rewrite decide_True, lookup_singleton_eq by apply list_elem_of_here.
  - rewrite decide_False, lookup_singleton_ne; [done..|].
    by intros ->%list_elem_of_singleton.
Qed.

(** X6: Removing an image twice is removing it once, removing an image that is
    not tracked changes nothing, and two removals give the same list in
    either order. *)
Theorem handleRemove_algebra (a b : string) (images : list ImageState) :
  App.handleRemove a (App.handleRemove a images) = App.handleRemove a images
  ∧ (a ∉ ids images → App.handleRemove a images = images)
  ∧ App.handleRemove a (App.handleRemove b images)
    = App.handleRemove b (App.handleRemove a images).
Proof.
  split; [|split]; [|apply handleRemove_absent|]; unfold App.handleRemove.
  - apply list_filter_filter_l. by intros img.
  - by rewrite !list_filter_filter, (list_filter_iff _ (λ img, Types.id img ≠ b ∧ Types.id img ≠ a));
      [|intros img; tauto].
Qed.

End Membership.

(** * What the handlers keep *)

Module Invariants.

Import ComparisonViewer Spec TableFacts Reconciliation FanOut.

Lemma dom_assignAll images s (tr : gmap string TransformState) :
  dom (assignAll images s tr) = dom tr ∪ list_to_set (ids images).
Proof.
  apply set_eq. intros k.
  rewrite elem_of_union, !elem_of_dom, assignAll_lookup, elem_of_list_to_set.
  destruct (decide (k ∈ ids images)) as [Hin|Hout].
  - split; [by right|by eexists].
  - split; [by left|]. by intros [?|?].
Qed.

Lemma dom_insert_present (tr : gmap string TransformState) k t s :
  tr !! k = Some t → dom (<[k := s]> tr) = dom tr.
Proof.
  intros Hk. rewrite dom_insert_L. apply subseteq_union_1_L.
  apply singleton_subseteq_l, elem_of_dom. by eexists.
Qed.

Lemma dom_moveAll dx dy images (tr : gmap string TransformState) :
  dom (table_of (moveAll dx dy images tr)) = dom tr.
Proof.
  revert tr. induction images as [|img images IH]; intros tr; [done|].
  cbn [moveAll]. destruct (tr !! Types.id img) as [t|] eqn:Ht; [|done].
  rewrite IH. by apply (dom_insert_present _ _ t).
Qed.

Lemma dom_applyTransformUpdate images isSynced targetId updater
    (tr : gmap string TransformState) :
  reconciled images tr →
  dom (table_of (applyTransformUpdate images isSynced targetId updater tr))
  = dom tr.
Proof.
  intros Hrec. unfold applyTransformUpdate.
  destruct (isSynced || negb (Js.truthy targetId)).
  - destruct (referenceId images targetId) as [rid|]; [|done].
    destruct (negb _); [done|].
    destruct (updater (tr !! rid)) as [s|]; [|done].
    cbn [table_of]. rewrite dom_assignAll, <- Hrec. apply union_idemp_L.
  - destruct targetId as [tid|]; [|done].
    destruct (tr !! tid) as [prev|] eqn:Hp; [|done].
    destruct (updater (Some prev)) as [s|]; [|done].
    by apply (dom_insert_present _ _ prev).
Qed.

(** X7: On a reconciled table every zoom and every pan step, for any target
    and in either mode, and every reset that is synced, has no target or
    targets a tracked image, leaves the keys of the table as they are: the
    table stays reconciled, also when the handler throws. *)
Theorem mutate_keeps_reconciled images isSynced m
    (tr : gmap string TransformState) :
  reconciled images tr →
  (∀ a, m = Reset (Some a) → isSynced = false → a ∈ ids images) →
  reconciled images (table_of (mutate images isSynced m tr)).
Proof.
  intros Hrec Hreset. unfold reconciled.
  enough (dom (table_of (mutate images isSynced m tr)) = dom tr) as ->
    by done.
  destruct m as [deltaY id|id direction|id|a dx dy]; cbn [mutate].
  - by apply dom_applyTransformUpdate.
  - by apply dom_applyTransformUpdate.
  - cbn [table_of]. unfold handleReset.
    destruct isSynced; cbn [orb].
    + rewrite dom_assignAll, <- Hrec. apply union_idemp_L.
    + destruct (negb (Js.truthy id)).
      * rewrite dom_assignAll, <- Hrec. apply union_idemp_L.
      * destruct id as [i|]; [|done].
        specialize (Hreset i eq_refl eq_refl).
        apply (reconciled_lookup _ _ _ Hrec) in Hreset as [t Ht].
        by apply (dom_insert_present _ _ t).
  - unfold handleMouseMove.
    destruct (negb true || negb (Js.truthy a)); [done|].
    destruct isSynced; [apply dom_moveAll|].
    destruct a as [targetId|]; [|done].
    destruct (tr !! targetId) as [t|] eqn:Ht; [|done].
    by apply (dom_insert_present _ _ t).
Qed.

Lemma mutate_keeps_reconciled_witness :
  reconciled [imgA; imgB]
    (table_of (mutate [imgA; imgB] false (Reset (Some "imgB")) offset2)).
Proof.
  apply (mutate_keeps_reconciled [imgA; imgB] false (Reset (Some "imgB"))
           offset2).
  - by vm_compute.
  - intros a [= <-] _. apply list_elem_of_further, list_elem_of_here.
Defined.

(** X8: A zoom on a tile whose image has no entry in the table: in synced mode
    the handler throws and the table is as before; in independent mode the
    zoom is ignored. *)
Theorem zoom_without_entry images m (tr : gmap string TransformState) a :
  is_zoom m = true →
  target m = Some a →
  Js.truthy (Some a) = true →
  tr !! a = None →
  mutate images true m tr = Throws tr
  ∧ mutate images false m tr = Normal tr.
Proof.
  intros Hz Ht Ha Hnone.
  destruct m as [deltaY id|id direction|id|act dx dy]; try discriminate;
    cbn [target] in Ht; simplify_eq; cbn [mutate];
    unfold handleWheel, handleZoomBtn, applyTransformUpdate;
    rewrite (referenceId_explicit images a Ha), Ha, Hnone; done.
Qed.

Lemma zoom_without_entry_witness :
  mutate [imgA; imgB; imgC] true (Wheel (lit (-10)) "imgC") offset2
    = Throws offset2
  ∧ mutate [imgA; imgB; imgC] false (Wheel (lit (-10)) "imgC") offset2
    = Normal offset2.
Proof.
  apply (zoom_without_entry [imgA; imgB; imgC] (Wheel (lit (-10)) "imgC")
           offset2 "imgC"); [reflexivity..|by vm_compute].
Defined.

(** X9: After a reset in synced mode, or one with no target, a reconciled table
    is the table of freshly tracked images: every earlier zoom and pan is
    forgotten. *)
Theorem reset_is_fresh_table images isSynced id
    (tr : gmap string TransformState) :
  reconciled images tr →
  isSynced || negb (Js.truthy id) = true →
  handleReset images isSynced id tr = ensure images ∅.
Proof.
  intros Hrec Hall. unfold handleReset. rewrite Hall.
  apply map_eq. intros k.
  rewrite assignAll_lookup, ensure_lookup, lookup_empty.
  destruct (decide (k ∈ ids images)) as [Hin|Hout]; [done|].
  apply eq_None_not_Some. intros Hk.
  by apply Hout, (reconciled_lookup _ _ _ Hrec).
Qed.

Lemma reset_is_fresh_table_witness :
  handleReset [imgA; imgB] false None offset2 = fresh2.
Proof.
  apply (reset_is_fresh_table [imgA; imgB] false None offset2);
    [by vm_compute|reflexivity].
Defined.

(** X10: In independent mode two mutations with different explicit targets give
    the same table in either order. *)
Theorem independent_mutations_commute images m1 m2
    (tr : gmap string TransformState) a b :
  target m1 = Some a → target m2 = Some b →
  Js.truthy (Some a) = true → Js.truthy (Some b) = true →
  a ≠ b →
  table_of (mutate images false m2 (table_of (mutate images false m1 tr)))
  = table_of (mutate images false m1 (table_of (mutate images false m2 tr))).
Proof.
  intros Ht1 Ht2 Ha Hb Hne.
  rewrite (mutate_independent images m2
             (table_of (mutate images false m1 tr)) b Ht2 Hb).
  rewrite (mutate_independent images m1
             (table_of (mutate images false m2 tr)) a Ht1 Ha).
  rewrite (mutate_independent images m1 tr a Ht1 Ha).
  rewrite (mutate_independent images m2 tr b Ht2 Hb).
  destruct (tr !! a) as [ta|] eqn:Hta, (tr !! b) as [tb|] eqn:Htb;
    destruct m1, m2;
    rewrite ?lookup_insert_ne by done; rewrite ?Hta, ?Htb;
    rewrite ?lookup_insert_ne by done; rewrite ?Hta, ?Htb;
    try done; by rewrite insert_insert_ne.
Qed.

Lemma independent_mutations_commute_witness :
  table_of (mutate [imgA; imgB] false (Wheel (lit (-10)) "imgB")
              (table_of (mutate [imgA; imgB] false
                           (PanStep (Some "imgA") (lit 2) (lit 3)) offset2)))
  = table_of (mutate [imgA; imgB] false
                (PanStep (Some "imgA") (lit 2) (lit 3))
                (table_of (mutate [imgA; imgB] false
                             (Wheel (lit (-10)) "imgB") offset2))).
Proof.
  apply (independent_mutations_commute [imgA; imgB]
           (PanStep (Some "imgA") (lit 2) (lit 3))
           (Wheel (lit (-10)) "imgB") offset2 "imgA" "imgB");
    [reflexivity..|discriminate].
Defined.

End Invariants.

(** * Synced mode keeps the images in lock-step *)

Module LockStep.

Import ComparisonViewer Spec TableFacts FanOut.

Lemma moveAll_app dx dy (l1 l2 : list ImageState)
    (tr : gmap string TransformState) :
  moveAll dx dy (l1 ++ l2) tr =
    match moveAll dx dy l1 tr with
    | Normal tr1 => moveAll dx dy l2 tr1
    | Throws tr1 => Throws tr1
    end.
Proof.
  revert tr. induction l1 as [|img l1 IH]; intros tr; [done|].
  cbn [app moveAll]. by destruct (tr !! Types.id img).
Qed.

(** X11: A synced pan step over images of which one has no entry in the table
    moves the images that come before it in the grid, leaves the others as
    they were, and throws. *)
Theorem synced_pan_stops_at_missing (pre post : list ImageState)
    (img : ImageState) a dx dy (tr : gmap string TransformState) :
  NoDup (ids (pre ++ img :: post)) →
  Forall (λ i, is_Some (tr !! i)) (ids pre) →
  tr !! Types.id img = None →
  Js.truthy a = true →
  ∃ tr', handleMouseMove (pre ++ img :: post) true true a dx dy tr
           = Throws tr'
    ∧ ∀ k, tr' !! k =
        if decide (k ∈ ids pre) then moved dx dy <$> tr !! k else tr !! k.
Proof.
  intros Hnd Hpre Hnone Ha. unfold ids in Hnd. rewrite fmap_app in Hnd.
  apply NoDup_app in Hnd as (Hnd & Hdisj & _).
  rewrite Forall_forall in Hpre.
  destruct (moveAll_lookup dx dy pre tr Hnd Hpre) as (tr' & Hrun & Hlk).
  exists tr'. split; [|done].
  unfold handleMouseMove. rewrite Ha. cbn [negb orb].
  rewrite moveAll_app, Hrun. cbn [moveAll].
  rewrite Hlk, decide_False, Hnone; [done|].
  intros Hin. apply (Hdisj _ Hin). rewrite fmap_cons. apply list_elem_of_here.
Qed.

Lemma synced_pan_stops_at_missing_witness :
  ∃ tr', handleMouseMove [imgA; imgC; imgB] true true (Some "imgB")
           (lit 1) (lit 1) offset2 = Throws tr'
    ∧ tr' !! "imgA" = Some (mkTransformState (lit 1) (lit 1) (lit 1))
    ∧ tr' !! "imgB" = Some (mkTransformState (lit 5) (lit (-3)) (lit 1)).
Proof.
  destruct (synced_pan_stops_at_missing [imgA] [imgB] imgC (Some "imgB")
              (lit 1) (lit 1) offset2) as (tr' & Hrun & Hlk).
  - apply (bool_decide_unpack _). by vm_compute.
  - apply (bool_decide_unpack _). by vm_compute.
  - by vm_compute.
  - reflexivity.
  - exists tr'. split; [exact Hrun|]. rewrite !Hlk. split; by vm_compute.
Defined.

Lemma moveAll_aligned dx dy images (tr : gmap string TransformState) :
  NoDup (ids images) → aligned images tr →
  aligned images (table_of (moveAll dx dy images tr)).
Proof.
  intros Hnd Hal. destruct images as [|img0 rest] eqn:Himgs.
  { intros i j Hi. by apply not_elem_of_nil in Hi. }
  rewrite <- Himgs in *.
  assert (H0 : Types.id img0 ∈ ids images)
    by (rewrite Himgs; apply list_elem_of_here).
  destruct (tr !! Types.id img0) as [t|] eqn:Ht.
  - destruct (moveAll_lookup dx dy images tr Hnd) as (tr' & Hrun & Hlk).
    { intros i Hi. rewrite (Hal i (Types.id img0) Hi H0), Ht. by eexists. }
    rewrite Hrun. cbn [table_of]. intros i j Hi Hj.
    by rewrite !Hlk, !decide_True, (Hal i j).
  - rewrite Himgs. cbn [moveAll]. rewrite Ht. cbn [table_of].
    by rewrite <- Himgs.
Qed.

Lemma mutate_synced_aligned images m (tr : gmap string TransformState) :
  NoDup (ids images) → aligned images tr →
  aligned images (table_of (mutate images true m tr)).
Proof.
  intros Hnd Hal. destruct m as [deltaY id|id direction|id|a dx dy];
    cbn [mutate].
  - unfold handleWheel, applyTransformUpdate. cbn [orb].
    destruct (referenceId images (Some id)) as [rid|]; [|done].
    destruct (negb _); [done|].
    destruct (wheelUpdater _ (tr !! rid)); [|done]. apply assignAll_aligned.
  - unfold handleZoomBtn, applyTransformUpdate. cbn [orb].
    destruct (referenceId images id) as [rid|]; [|done].
    destruct (negb _); [done|].
    destruct (btnUpdater _ (tr !! rid)); [|done]. apply assignAll_aligned.
  - apply assignAll_aligned.
  - unfold handleMouseMove.
    destruct (negb true || negb (Js.truthy a)); [done|].
    by apply moveAll_aligned.
Qed.

(** X12: Lock-step: when the tracked images (with distinct identifiers) show one
    and the same transform, they still do after any sequence of zooms,
    resets and pan steps handled in synced mode, whichever tile each event
    comes from and also when a handler throws. *)
Theorem synced_run_keeps_aligned images ops
    (tr : gmap string TransformState) :
  NoDup (ids images) →
  Forall (λ op, op.1 = true) ops →
  aligned images tr →
  aligned images (run images ops tr).
Proof.
  intros Hnd. unfold run. revert tr.
  induction ops as [|[synced m] ops IH]; intros tr Hops Hal; [done|].
  apply Forall_cons in Hops as [Hs Hops]. cbn [fst] in Hs. subst synced.
  cbn [foldl fst snd]. apply IH; [done|]. by apply mutate_synced_aligned.
Qed.

Lemma synced_run_keeps_aligned_witness :
  aligned [imgA; imgB]
    (run [imgA; imgB]
       [(true, PanStep (Some "imgA") (lit 0.1) (lit 0.2));
        (true, Wheel (lit (-120)) "imgB");
        (true, PanStep (Some "imgB") (lit (-7)) (lit 4))] fresh2).
Proof.
  apply synced_run_keeps_aligned.
  - apply (bool_decide_unpack _). by vm_compute.
  - apply (bool_decide_unpack _). by vm_compute.
  - intros i j Hi Hj.
    apply elem_of_cons in Hi as [->|Hi];
      [|apply list_elem_of_singleton in Hi as ->];
      (apply elem_of_cons in Hj as [->|Hj];
        [|apply list_elem_of_singleton in Hj as ->]); by vm_compute.
Defined.

End LockStep.

(** * The clamp of the scale and the bounds of the grid *)

Module Bounds.

Import ComparisonViewer Spec Grid NumberFacts TableFacts FanOut.

Lemma compare_antisym a b c :
  SFcompare a b = Some c → SFcompare b a = Some (CompOpp c).
Proof.
  destruct a as [sa|sa| |sa ma ea], b as [sb|sb| |sb mb eb]; simpl;
    try discriminate; intros [= <-].
  all: try (by destruct sa, sb).
  all: try (by destruct sa).
  all: try (by destruct sb).
  destruct sa, sb; try done; f_equal;
    rewrite (Z.compare_antisym ea eb);
    destruct (ea ?= eb)%Z; try done; simpl;
    by rewrite (Pos.compare_cont_antisym ma mb Eq).
Qed.

Lemma compare_Eq_finite s m e b :
  SFcompare (S754_finite s m e) b = Some Eq → b = S754_finite s m e.
Proof.
  destruct b as [sb|sb| |sb mb eb]; simpl; try discriminate.
  - by destruct s.
  - by destruct sb.
  - destruct s, sb; try discriminate; intros [= H];
      destruct (e ?= eb)%Z eqn:He; try discriminate;
      apply Z.compare_eq in He; subst eb; f_equal.
    + destruct (Pos.compare_cont Eq m mb) eqn:Hm; try discriminate.
      symmetry. by apply Pos.compare_eq.
    + symmetry. by apply Pos.compare_eq.
Qed.

Lemma not_ltb_leb a b :
  is_nan a = false → is_nan b = false → ltb a b = false → leb b a = true.
Proof.
  intros Ha Hb. unfold ltb, leb, SFltb, SFleb.
  destruct (SFcompare a b) as [c|] eqn:Hc.
  - rewrite (compare_antisym _ _ _ Hc). by destruct c.
  - apply compare_None in Hc as [?|?]; congruence.
Qed.

Lemma clampScale_fixes v : in_range v = true → clampScale v = v.
Proof.
  intros Hv. destruct (in_range_finite v Hv) as (sg & m & e & ->).
  unfold in_range in Hv. apply andb_true_iff in Hv as [Hlo Hhi].
  unfold leb, SFleb in Hlo, Hhi. unfold clampScale, Math_max.
  destruct (SFcompare (lit 0.1) (S754_finite sg m e)) as [[]|] eqn:Hc;
    try discriminate.
  - change (lit 0.1) with (S754_finite false 7205759403792794 (-56)) in Hc.
    apply compare_Eq_finite in Hc. rewrite Hc.
    by vm_compute.
  - unfold Math_min.
    by destruct (SFcompare (S754_finite sg m e) (lit 20)) as [[]|].
Qed.

(** X13: The clamp of the scale leaves the numbers of [[0.1, 20]] as they are,
    takes every other number except NaN into that interval, and lets NaN
    through; clamping twice is clamping once. *)
Theorem clampScale_facts (v : number) :
  clampScale (clampScale v) = clampScale v
  ∧ (in_range v = true → clampScale v = v)
  ∧ (is_nan v = false → in_range (clampScale v) = true)
  ∧ (is_nan v = true → is_nan (clampScale v) = true).
Proof.
  assert (Hnan : is_nan v = true → clampScale v = S754_nan).
  { destruct v; try discriminate. intros _. by vm_compute. }
  split; [|split; [apply clampScale_fixes|split;
                    [apply clampScale_in_range|]]].
  - destruct (is_nan v) eqn:Hv.
    + rewrite (Hnan eq_refl). by vm_compute.
    + by apply clampScale_fixes, clampScale_in_range.
  - intros Hv. by rewrite (Hnan Hv).
Qed.

(** X14: In independent mode a wheel event with [deltaY] zero, of either sign,
    on a tile leaves the table as it is, when the scales are in
    [[0.1, 20]]. *)
Theorem wheel_zero_delta_independent images deltaY id
    (tr : gmap string TransformState) :
  is_zero deltaY = true →
  Js.truthy (Some id) = true →
  scales_in_range tr →
  handleWheel images false deltaY id tr = Normal tr.
Proof.
  intros Hz Hid Htr. unfold handleWheel.
  rewrite applyTransformUpdate_one by done.
  destruct (tr !! id) as [t|] eqn:Ht; [|done]. cbn [wheelUpdater].
  pose proof (map_Forall_lookup_1 _ _ _ _ Htr Ht) as Hs. cbn beta in Hs.
  assert (Hadd : add (Types.scale t) (mul deltaY (neg ZOOM_SPEED))
                 = Types.scale t).
  { destruct (in_range_finite _ Hs) as (sg & m & e & ->).
    destruct deltaY as [s| | |]; try discriminate. done. }
  rewrite Hadd, (clampScale_fixes _ Hs). f_equal.
  apply insert_id. rewrite Ht. by destruct t.
Qed.

Lemma wheel_zero_delta_independent_witness :
  handleWheel [imgA; imgB] false (lit (-0)) "imgB" offset2 = Normal offset2.
Proof.
  apply (wheel_zero_delta_independent [imgA; imgB] (lit (-0)) "imgB" offset2);
    [reflexivity|reflexivity|].
  apply (bool_decide_unpack _). by vm_compute.
Defined.

(** ** The grid *)

Lemma in_grid_finite v :
  in_grid v = true → ∃ sg m e, v = S754_finite sg m e.
Proof.
  unfold in_grid. intros H.
  destruct v as [sg|[]| |sg m e]; [vm_compute in H; discriminate..|].
  eauto.
Qed.

(** X15: [updateLayout] keeps both dimensions within [[1, 8]] for every delta
    that is not NaN: a change that would leave the interval is dropped. *)
Theorem updateLayout_in_grid key delta (prev : App.Layout) :
  is_nan delta = false →
  in_grid (App.rows prev) = true →
  in_grid (App.cols prev) = true →
  in_grid (App.rows (App.updateLayout key delta prev)) = true
  ∧ in_grid (App.cols (App.updateLayout key delta prev)) = true.
Proof.
  intros Hd Hr Hc. unfold App.updateLayout.
  set (nv := add (App.layoutGet key prev) delta).
  assert (Hnv : is_nan nv = false).
  { apply add_not_nan; [|done].
    assert (Hk : in_grid (App.layoutGet key prev) = true)
      by (by destruct key).
    by destruct (in_grid_finite _ Hk) as (sg & m & e & ->). }
  destruct (ltb nv (lit 1)) eqn:H1; [done|].
  destruct (ltb (lit 8) nv) eqn:H8; [done|]. cbn [orb].
  assert (Hin : in_grid nv = true).
  { unfold in_grid. apply andb_true_iff. split; by apply not_ltb_leb. }
  by destruct key.
Qed.

Lemma updateLayout_in_grid_witness :
  in_grid (App.rows (App.updateLayout App.key_rows (lit 2.5)
                       App.initialLayout)) = true
  ∧ in_grid (App.cols (App.updateLayout App.key_cols (lit 100)
                         App.initialLayout)) = true.
Proof.
  split.
  - by apply (updateLayout_in_grid App.key_rows (lit 2.5) App.initialLayout).
  - by apply (updateLayout_in_grid App.key_cols (lit 100) App.initialLayout).
Defined.

Lemma press_ok_all :
  Forall (λ key,
    Forall (λ delta,
      Forall (λ r,
        Forall (λ c, press_ok key delta (App.mkLayout r c)) grid_values)
        grid_values) button_deltas) [App.key_rows; App.key_cols].
Proof. apply (bool_decide_unpack _). by vm_compute. Qed.

Lemma press_ok_reachable key delta (prev : App.Layout) :
  delta ∈ button_deltas →
  App.rows prev ∈ grid_values → App.cols prev ∈ grid_values →
  press_ok key delta prev.
Proof.
  intros Hd Hr Hc. pose proof press_ok_all as H.
  rewrite Forall_forall in H.
  assert (Hk : key ∈ [App.key_rows; App.key_cols]).
  { destruct key; [apply list_elem_of_here|].
    apply list_elem_of_further, list_elem_of_here. }
  specialize (H key Hk). rewrite Forall_forall in H.
  specialize (H delta Hd). rewrite Forall_forall in H.
  specialize (H _ Hr). rewrite Forall_forall in H.
  specialize (H _ Hc). by destruct prev.
Qed.

(** X16: Whatever [+] and [-] buttons of the header are pressed, in whatever
    order, the rows and the columns of the layout are whole numbers from 1
    to 8. *)
Theorem pressed_in_grid (presses : list (App.LayoutKey * number)) :
  Forall (λ p, p.2 ∈ button_deltas) presses →
  App.rows (pressed presses) ∈ grid_values
  ∧ App.cols (pressed presses) ∈ grid_values.
Proof.
  unfold pressed.
  assert (Hgen : ∀ l0, App.rows l0 ∈ grid_values → App.cols l0 ∈ grid_values →
            Forall (λ p, p.2 ∈ button_deltas) presses →
            App.rows (foldl (λ acc p, App.updateLayout p.1 p.2 acc) l0 presses)
              ∈ grid_values
            ∧ App.cols (foldl (λ acc p, App.updateLayout p.1 p.2 acc) l0
                          presses) ∈ grid_values).
  { induction presses as [|[key delta] presses IH]; intros l0 Hr Hc Hp;
      [done|].
    apply Forall_cons in Hp as [Hd Hp]. cbn [foldl fst snd].
    destruct (press_ok_reachable key delta l0 Hd Hr Hc) as (Hr' & Hc' & _).
    by apply IH. }
  apply Hgen.
  - apply list_elem_of_here.
  - apply list_elem_of_further, list_elem_of_here.
Qed.

Lemma pressed_in_grid_witness :
  pressed [(App.key_rows, lit (-1)); (App.key_cols, lit 1);
           (App.key_cols, lit 1); (App.key_rows, lit 1)]
    = App.mkLayout (lit 2) (lit 4)
  ∧ App.rows (pressed [(App.key_rows, lit (-1)); (App.key_cols, lit 1);
                       (App.key_cols, lit 1); (App.key_rows, lit 1)])
    ∈ grid_values.
Proof.
  split; [by vm_compute|].
  apply (pressed_in_grid [(App.key_rows, lit (-1)); (App.key_cols, lit 1);
                          (App.key_cols, lit 1); (App.key_rows, lit 1)]).
  apply (bool_decide_unpack _). by vm_compute.
Defined.

(** X17: A press of [+] or [-] that changes a layout of whole dimensions from 1
    to 8 is undone by the opposite press; a press at the bound (rows or
    columns already 1 or 8) changes nothing. *)
Theorem press_undone key delta (prev : App.Layout) :
  delta ∈ button_deltas →
  App.rows prev ∈ grid_values → App.cols prev ∈ grid_values →
  App.updateLayout key delta prev = prev
  ∨ App.updateLayout key (neg delta) (App.updateLayout key delta prev)
    = prev.
Proof.
  intros Hd Hr Hc.
  by destruct (press_ok_reachable key delta prev Hd Hr Hc) as (_ & _ & H).
Qed.

Lemma press_undone_witness :
  App.updateLayout App.key_rows (lit 1) (App.mkLayout (lit 8) (lit 2))
    = App.mkLayout (lit 8) (lit 2)
  ∧ App.updateLayout App.key_cols (lit (-1))
      (App.updateLayout App.key_cols (lit 1) App.initialLayout)
    = App.initialLayout.
Proof.
  split; [by vm_compute|].
  destruct (press_undone App.key_cols (lit 1) App.initialLayout) as [H|H].
  - apply list_elem_of_here.
  - apply list_elem_of_here.
  - apply list_elem_of_further, list_elem_of_here.
  - vm_compute in H. discriminate.
  - exact H.
Defined.

End Bounds.

(** * The drag gesture *)

Module Gesture.

Import ComparisonViewer Spec Drag TableFacts.

Lemma steps_app images isSynced (evs1 evs2 : list MouseEvent) st :
  steps images isSynced (evs1 ++ evs2) st
  = steps images isSynced evs2 (steps images isSynced evs1 st).
Proof. unfold steps. apply foldl_app. Qed.

Lemma moves_independent images id (moves : list (number * number))
    (tr : gmap string TransformState) t :
  Js.truthy (Some id) = true →
  tr !! id = Some t →
  steps images false ((λ m, MouseMove m.1 m.2) <$> moves)
        (mkDragState true (Some id), tr)
  = (mkDragState true (Some id), <[id := movedBy moves t]> tr).
Proof.
  intros Hid. unfold steps, movedBy. revert tr t.
  induction moves as [|[dx dy] moves IH]; intros tr t Ht.
  - cbn [fmap list_fmap foldl]. by rewrite insert_id.
  - rewrite fmap_cons. cbn [foldl step fst snd isPanning activeImageIdRef].
    unfold handleMouseMove. rewrite Hid, Ht. cbn [negb orb table_of].
    rewrite (IH _ (moved dx dy t)) by apply lookup_insert_eq.
    by rewrite insert_insert_eq.
Qed.

(** X18: A drag in independent mode: the primary button pressed on the tile of
    an image that has an entry, any pointer moves, the release. The image
    ends moved by each of the moves in turn, with its scale as before;
    every other entry is as it was, and the viewer is idle again. *)
Theorem drag_independent images button id
    (moves : list (number * number)) (tr : gmap string TransformState) t :
  SFeqb button (lit 0) = true →
  Js.truthy (Some id) = true →
  tr !! id = Some t →
  steps images false (gesture button id moves) (idle, tr)
  = (idle, <[id := movedBy moves t]> tr).
Proof.
  intros Hb Hid Ht. unfold gesture.
  change (MouseDown button id :: ?l) with ([MouseDown button id] ++ l).
  rewrite !steps_app.
  assert (Hdown : steps images false [MouseDown button id] (idle, tr)
                  = (mkDragState true (Some id), tr)).
  { unfold steps. cbn [foldl step fst snd]. unfold handleMouseDown.
    by rewrite Hb. }
  rewrite Hdown, (moves_independent images id moves tr t Hid Ht). done.
Qed.

Lemma drag_independent_witness :
  steps [imgA; imgB] false
    (gesture (lit 0) "imgA" [(lit 3, lit 4); (lit (-1), lit 2)])
    (idle, offset2)
  = (idle, <["imgA" := mkTransformState (lit 2) (lit 6) (lit 1)]> offset2).
Proof.
  rewrite (drag_independent [imgA; imgB] (lit 0) "imgA"
             [(lit 3, lit 4); (lit (-1), lit 2)] offset2 identity);
    [by vm_compute|reflexivity|reflexivity|by vm_compute].
Defined.

Lemma moves_synced images a (moves : list (number * number))
    (tr : gmap string TransformState) :
  NoDup (ids images) →
  Js.truthy a = true →
  (∀ i, i ∈ ids images → is_Some (tr !! i)) →
  ∃ tr', steps images true ((λ m, MouseMove m.1 m.2) <$> moves)
           (mkDragState true a, tr) = (mkDragState true a, tr')
    ∧ ∀ k, tr' !! k =
        if decide (k ∈ ids images) then movedBy moves <$> tr !! k
        else tr !! k.
Proof.
  intros Hnd Ha. unfold steps, movedBy. revert tr.
  induction moves as [|[dx dy] moves IH]; intros tr Hall.
  - exists tr. split; [done|]. intros k. cbn [foldl].
    destruct (decide (k ∈ ids images)); [|done]. by destruct (tr !! k).
  - destruct (moveAll_lookup dx dy images tr Hnd Hall) as (tr1 & Hrun & Hlk).
    destruct (IH tr1) as (tr' & Hsteps & Hlk').
    { intros i Hi. rewrite Hlk, decide_True by done.
      destruct (Hall i Hi) as [t ->]. by eexists. }
    exists tr'. split.
    + rewrite fmap_cons. cbn [foldl step fst snd isPanning activeImageIdRef].
      unfold handleMouseMove. rewrite Ha. cbn [negb orb].
      rewrite Hrun. cbn [table_of]. exact Hsteps.
    + intros k. rewrite Hlk', Hlk. cbn [foldl fst snd].
      destruct (decide (k ∈ ids images)); [|done]. by destruct (tr !! k).
Qed.

(** X19: A drag in synced mode, over images with distinct identifiers that all
    have an entry: every tracked image ends moved by each of the moves in
    turn, from its own transform, whichever tile the drag started on. *)
Theorem drag_synced images button id (moves : list (number * number))
    (tr : gmap string TransformState) :
  SFeqb button (lit 0) = true →
  Js.truthy (Some id) = true →
  NoDup (ids images) →
  Forall (λ i, is_Some (tr !! i)) (ids images) →
  ∃ tr', steps images true (gesture button id moves) (idle, tr) = (idle, tr')
    ∧ ∀ k, tr' !! k =
        if decide (k ∈ ids images) then movedBy moves <$> tr !! k
        else tr !! k.
Proof.
  intros Hb Hid Hnd Hall. rewrite Forall_forall in Hall.
  destruct (moves_synced images (Some id) moves tr Hnd Hid Hall)
    as (tr' & Hsteps & Hlk).
  exists tr'. split; [|done]. unfold gesture.
  change (MouseDown button id :: ?l) with ([MouseDown button id] ++ l).
  rewrite !steps_app.
  assert (Hdown : steps images true [MouseDown button id] (idle, tr)
                  = (mkDragState true (Some id), tr)).
  { unfold steps. cbn [foldl step fst snd]. unfold handleMouseDown.
    by rewrite Hb. }
  by rewrite Hdown, Hsteps.
Qed.

Lemma drag_synced_witness :
  ∃ tr', steps [imgA; imgB] true
           (gesture (lit 0) "imgA" [(lit 3, lit 4); (lit (-1), lit 2)])
           (idle, offset2) = (idle, tr')
    ∧ tr' !! "imgA" = Some (mkTransformState (lit 2) (lit 6) (lit 1))
    ∧ tr' !! "imgB" = Some (mkTransformState (lit 7) (lit 3) (lit 1)).
Proof.
  destruct (drag_synced [imgA; imgB] (lit 0) "imgA"
              [(lit 3, lit 4); (lit (-1), lit 2)] offset2)
    as (tr' & Hrun & Hlk).
  - reflexivity.
  - reflexivity.
  - apply (bool_decide_unpack _). by vm_compute.
  - apply (bool_decide_unpack _). by vm_compute.
  - exists tr'. split; [exact Hrun|]. rewrite !Hlk. split; by vm_compute.
Defined.

(** X20: While the viewer is idle, events other than a press of the primary
    button on a tile (presses of other buttons, pointer moves, releases)
    change neither the table nor the drag state, in either mode. *)
Theorem idle_ignores images isSynced (evs : list MouseEvent)
    (tr : gmap string TransformState) :
  Forall (λ ev, is_primary_press ev = false) evs →
  steps images isSynced evs (idle, tr) = (idle, tr).
Proof.
  unfold steps. induction evs as [|ev evs IH]; intros Hevs; [done|].
  apply Forall_cons in Hevs as [Hev Hevs]. cbn [foldl].
  assert (Hstep : step images isSynced ev (idle, tr) = (idle, tr)).
  { destruct ev as [button id|dx dy|]; [|done..].
    cbn [step fst snd]. unfold handleMouseDown.
    cbn [is_primary_press] in Hev. by rewrite Hev. }
  rewrite Hstep. by apply IH.
Qed.

Lemma idle_ignores_witness :
  steps [imgA; imgB] true
    [MouseMove (lit 9) (lit 9); MouseDown (lit 2) "imgA";
     MouseMove (lit 5) (lit 5); MouseUp] (idle, offset2)
  = (idle, offset2).
Proof.
  apply (idle_ignores [imgA; imgB] true).
  apply (bool_decide_unpack _). by vm_compute.
Defined.

End Gesture.

(** * The scales never leave their interval *)

Module Scales.

Import ComparisonViewer Spec Zoom.

(** X21: From a table whose scales are in [[0.1, 20]], any sequence of zooms,
    resets and pan steps, each on any target and under either sync mode,
    leads to a table whose scales are in [[0.1, 20]], as long as no wheel
    delta is NaN. *)
Theorem run_keeps_scales images (ops : list (bool * Mutation))
    (tr : gmap string TransformState) :
  Forall (λ op, delta_ok op.2 = true) ops →
  scales_in_range tr →
  scales_in_range (run images ops tr).
Proof. apply run_in_range. Qed.

Lemma run_keeps_scales_witness :
  scales_in_range
    (run [imgA; imgB]
       [(false, Wheel (lit 5000) "imgB");
        (true, PanStep (Some "imgA") (lit 3) (lit 3));
        (false, Reset (Some "imgA"));
        (true, ZoomBtn None dir_out)] offset2).
Proof.
  apply run_keeps_scales.
  - apply (bool_decide_unpack _). by vm_compute.
  - apply (bool_decide_unpack _). by vm_compute.
Defined.

End Scales.

(** * Splitting a wheel delta *)

Module Split.
Import ComparisonViewer Spec Exact NumberFacts Zoom Bounds.

Lemma digits2_pos_size p : digits2_pos p = Pos.size p.
Proof. induction p; simpl; congruence. Qed.

Lemma size_bounds p :
  (2 ^ (Z.pos (Pos.size p) - 1) ≤ Z.pos p)%Z
  ∧ (Z.pos p < 2 ^ Z.pos (Pos.size p))%Z.
Proof.
  split.
  - pose proof (Pos.size_le p) as H.
    assert (H' : (2 ^ Z.pos (Pos.size p) ≤ 2 * Z.pos p)).
    { rewrite <- Pos2Z.inj_pow. change (2 * Z.pos p) with (Z.pos p~0). lia. }
    replace (Z.pos (Pos.size p)) with (Z.succ (Z.pos (Pos.size p) - 1))
      in H' by lia.
    rewrite Z.pow_succ_r in H' by lia. lia.
  - pose proof (Pos.size_gt p) as H. rewrite <- Pos2Z.inj_pow. lia.
Qed.

Lemma is_double_finite s m e :
  is_double (S754_finite s m e) = true →
  e = Z.max (Z.pos (Pos.size m) + e - 53) (-1074) ∧ e ≤ 971.
Proof.
  unfold is_double, SpecFloat.valid_binary, bounded, canonical_mantissa, fexp,
    SpecFloat.emin, prec, emax.
  rewrite digits2_pos_size. intros H. apply andb_true_iff in H as [H1 H2].
  apply Z.eqb_eq in H1. apply Z.leb_le in H2. lia.
Qed.

Lemma canonical_lt ma ea mb eb :
  ea = Z.max (Z.pos (Pos.size ma) + ea - 53) (-1074) →
  eb = Z.max (Z.pos (Pos.size mb) + eb - 53) (-1074) →
  ea < eb →
  Z.pos ma * 2 ^ (ea + 1074) < Z.pos mb * 2 ^ (eb + 1074).
Proof.
  intros Ha Hb Hlt.
  pose proof (size_bounds ma) as [_ Hma].
  pose proof (size_bounds mb) as [Hmb _].
  set (da := Z.pos (Pos.size ma)) in *. set (db := Z.pos (Pos.size mb)) in *.
  assert (Hda : 0 < da) by (subst da; lia).
  assert (Hdb : 0 < db) by (subst db; lia).
  clearbody da db.
  assert (Hd : da + ea ≤ db + eb - 1) by lia.
  assert (H1 : Z.pos ma * 2 ^ (ea + 1074) < 2 ^ (da + ea + 1074)).
  { replace (da + ea + 1074) with (da + (ea + 1074)) by lia.
    rewrite (Z.pow_add_r 2 da (ea + 1074)) by lia.
    apply Z.mul_lt_mono_pos_r; [apply Z.pow_pos_nonneg; lia|done]. }
  assert (H2 : 2 ^ (da + ea + 1074) ≤ 2 ^ (db - 1 + (eb + 1074))).
  { apply Z.pow_le_mono_r; lia. }
  assert (H3 : 2 ^ (db - 1 + (eb + 1074)) ≤ Z.pos mb * 2 ^ (eb + 1074)).
  { rewrite (Z.pow_add_r 2 (db - 1) (eb + 1074)) by lia.
    apply Z.mul_le_mono_nonneg_r; [apply Z.pow_nonneg; lia|done]. }
  lia.
Qed.

Lemma units_pos m e : -1074 ≤ e → 0 < Z.pos m * 2 ^ (e + 1074).
Proof.
  intros He. apply Z.mul_pos_pos; [lia|]. apply Z.pow_pos_nonneg; lia.
Qed.

Lemma compare_units_pos ma ea mb eb :
  is_double (S754_finite false ma ea) = true →
  is_double (S754_finite false mb eb) = true →
  match (ea ?= eb)%Z with
  | Eq => Pos.compare_cont Eq ma mb
  | Lt => Lt
  | Gt => Gt
  end = (Z.pos ma * 2 ^ (ea + 1074) ?= Z.pos mb * 2 ^ (eb + 1074))%Z.
Proof.
  intros Ha Hb. apply is_double_finite in Ha as [Ha _].
  apply is_double_finite in Hb as [Hb _].
  destruct (Z.compare_spec ea eb) as [->|Hlt|Hgt]; symmetry.
  - change (Pos.compare_cont Eq ma mb) with (Z.pos ma ?= Z.pos mb)%Z.
    pose proof (Z.pow_pos_nonneg 2 (eb + 1074)) as Hp.
    destruct (Z.compare_spec (Z.pos ma) (Z.pos mb)) as [Heq|Hl|Hg].
    + apply Z.compare_eq_iff. by rewrite Heq.
    + apply Z.compare_lt_iff. apply Z.mul_lt_mono_pos_r; lia.
    + apply Z.compare_gt_iff. apply Z.mul_lt_mono_pos_r; lia.
  - apply Z.compare_lt_iff. by apply canonical_lt.
  - apply Z.compare_gt_iff. by apply canonical_lt.
Qed.

Lemma compare_units x y :
  is_finite x = true → is_finite y = true →
  is_double x = true → is_double y = true →
  SFcompare x y = Some (units x ?= units y)%Z.
Proof.
  intros Hfx Hfy Hx Hy.
  destruct x as [sx| | |sx mx ex], y as [sy| | |sy my ey]; try discriminate.
  - done.
  - pose proof (is_double_finite _ _ _ Hy) as [He _].
    pose proof (units_pos my ey) as Hp.
    cbn [SFcompare units cond_Zopp]. destruct sy; cbn [cond_Zopp];
      f_equal; symmetry; [apply Z.compare_gt_iff|apply Z.compare_lt_iff]; lia.
  - pose proof (is_double_finite _ _ _ Hx) as [He _].
    pose proof (units_pos mx ex) as Hp.
    cbn [SFcompare units cond_Zopp]. destruct sx; cbn [cond_Zopp];
      f_equal; symmetry; [apply Z.compare_lt_iff|apply Z.compare_gt_iff]; lia.
  - pose proof (is_double_finite _ _ _ Hx) as [Hex _].
    pose proof (is_double_finite _ _ _ Hy) as [Hey _].
    pose proof (units_pos mx ex) as Hpx. pose proof (units_pos my ey) as Hpy.
    cbn [SFcompare units]. destruct sx, sy; cbn [cond_Zopp]; f_equal.
    + rewrite Z.compare_opp.
      rewrite <- (compare_units_pos my ey mx ex) by done.
      rewrite (Z.compare_antisym ey ex).
      destruct (ey ?= ex)%Z; try done. cbn [CompOpp].
      apply (Pos.compare_cont_antisym mx my Eq).
    + symmetry. apply Z.compare_lt_iff. lia.
    + symmetry. apply Z.compare_gt_iff. lia.
    + by apply compare_units_pos.
Qed.

Lemma value_units x :
  is_finite x = true → is_double x = true →
  (value x == inject_Z (units x) * 2 ^ (-1074))%Q.
Proof.
  intros Hf Hd. destruct x as [s| | |s m e]; try discriminate.
  - cbn [value units]. by rewrite Qmult_0_l.
  - apply is_double_finite in Hd as [He _].
    assert (Hq : (inject_Z (Z.pos m * 2 ^ (e + 1074)) * 2 ^ (-1074)
                  == inject_Z (Z.pos m) * 2 ^ e)%Q).
    { rewrite inject_Z_mult, Zpower_Qpower by lia.
      rewrite <- Qmult_assoc, <- Qpower_plus by done.
      by replace (e + 1074 + -1074)%Z with e by lia. }
    cbn [value units]. destruct s; cbn [cond_Zopp].
    + rewrite inject_Z_opp, <- Hq. ring.
    + by rewrite Hq.
Qed.

(** The operations take binary64 representations to binary64
    representations. *)
Lemma add_is_double a b :
  is_double a = true → is_double b = true → is_double (add a b) = true.
Proof.
  intros Ha Hb. unfold is_double in *.
  change (add a b) with (SF64add a b).
  rewrite <- (Prim2SF_SF2Prim a Ha), <- (Prim2SF_SF2Prim b Hb).
  rewrite <- (add_spec (SF2Prim a) (SF2Prim b)).
  apply Prim2SF_valid.
Qed.

Lemma mul_is_double a b :
  is_double a = true → is_double b = true → is_double (mul a b) = true.
Proof.
  intros Ha Hb. unfold is_double in *.
  change (mul a b) with (SF64mul a b).
  rewrite <- (Prim2SF_SF2Prim a Ha), <- (Prim2SF_SF2Prim b Hb).
  rewrite <- (mul_spec (SF2Prim a) (SF2Prim b)).
  apply Prim2SF_valid.
Qed.

Lemma wheelDelta_is_double d :
  is_double d = true → is_double (wheelDelta d) = true.
Proof. intros Hd. by apply mul_is_double. Qed.

Lemma sum_units x y z :
  is_finite x = true → is_double x = true →
  is_finite y = true → is_double y = true →
  is_finite z = true → is_double z = true →
  (value z == value x + value y)%Q → units z = units x + units y.
Proof.
  intros Hfx Hdx Hfy Hdy Hfz Hdz Hv.
  apply inject_Z_injective. rewrite inject_Z_plus.
  apply (Qmult_inj_r _ _ (2 ^ (-1074))%Q).
  { intros H. by pose proof (Qpower_0_lt 2 (-1074) eq_refl) as Hp;
      rewrite H in Hp. }
  rewrite Qmult_plus_distr_l.
  by rewrite <- !value_units.
Qed.

Lemma value_units_nonneg x :
  is_finite x = true → is_double x = true →
  (0 <= value x)%Q ↔ 0 ≤ units x.
Proof.
  intros Hf Hd. rewrite (value_units x Hf Hd).
  rewrite <- (Qmult_0_l (2 ^ (-1074))) at 1.
  rewrite Qmult_le_r by (by apply Qpower_0_lt).
  by rewrite (Zle_Qle 0 (units x)).
Qed.

Lemma value_units_nonpos x :
  is_finite x = true → is_double x = true →
  (value x <= 0)%Q ↔ units x ≤ 0.
Proof.
  intros Hf Hd. rewrite (value_units x Hf Hd).
  rewrite <- (Qmult_0_l (2 ^ (-1074))) at 1.
  rewrite Qmult_le_r by (by apply Qpower_0_lt).
  by rewrite (Zle_Qle (units x) 0).
Qed.

Lemma exact_add_units a b :
  is_double a = true → is_double b = true → exact_add a b →
  units (add a b) = units a + units b.
Proof.
  intros Ha Hb (Hfa & Hfb & Hf & Hv).
  pose proof (add_is_double a b Ha Hb) as Hab.
  apply inject_Z_injective. rewrite inject_Z_plus.
  apply (Qmult_inj_r _ _ (2 ^ (-1074))%Q).
  { intros H. by pose proof (Qpower_0_lt 2 (-1074) eq_refl) as Hp;
      rewrite H in Hp. }
  rewrite Qmult_plus_distr_l.
  by rewrite <- !value_units.
Qed.

(** ** The clamp, read on the units *)

Lemma bounds_units :
  0 < units (lit 0.1) ∧ units (lit 0.1) < units (lit 20).
Proof.
  split.
  - change (lit 0.1) with (S754_finite false 7205759403792794 (-56)).
    by apply units_pos.
  - apply Z.compare_lt_iff.
    assert (H : SFcompare (lit 0.1) (lit 20)
                = Some (units (lit 0.1) ?= units (lit 20))%Z)
      by (by apply compare_units).
    assert (H' : SFcompare (lit 0.1) (lit 20) = Some Lt) by (by vm_compute).
    congruence.
Qed.

Lemma clamp_low x :
  is_finite x = true → is_double x = true →
  units x < units (lit 0.1) → clampScale x = lit 0.1.
Proof.
  intros Hf Hd Hu. unfold clampScale, Math_max.
  rewrite (compare_units (lit 0.1) x) by done.
  apply Z.compare_gt_iff in Hu. rewrite Hu. by vm_compute.
Qed.

Lemma clamp_high x :
  is_finite x = true → is_double x = true →
  units (lit 20) < units x → clampScale x = lit 20.
Proof.
  intros Hf Hd Hu. pose proof bounds_units as [_ Hb].
  unfold clampScale, Math_max.
  rewrite (compare_units (lit 0.1) x) by done.
  assert (Hlo : (units (lit 0.1) ?= units x)%Z = Lt)
    by (apply Z.compare_lt_iff; lia).
  rewrite Hlo. unfold Math_min.
  rewrite (compare_units x (lit 20)) by done.
  apply Z.compare_gt_iff in Hu. by rewrite Hu.
Qed.

Lemma in_range_units x :
  is_finite x = true → is_double x = true →
  in_range x = true ↔ units (lit 0.1) ≤ units x ∧ units x ≤ units (lit 20).
Proof.
  intros Hf Hd. unfold in_range, leb, SFleb.
  rewrite (compare_units (lit 0.1) x), (compare_units x (lit 20)) by done.
  rewrite andb_true_iff.
  destruct (Z.compare_spec (units (lit 0.1)) (units x));
    destruct (Z.compare_spec (units x) (units (lit 20))); split;
    try lia; try done; intros [? ?]; done.
Qed.

Lemma clamp_mid x :
  is_finite x = true → is_double x = true →
  units (lit 0.1) ≤ units x → units x ≤ units (lit 20) → clampScale x = x.
Proof.
  intros Hf Hd Hlo Hhi. by apply clampScale_fixes, in_range_units.
Qed.

Lemma units_inj x y :
  is_finite x = true → is_double x = true →
  is_finite y = true → is_double y = true →
  0 < units x → units x = units y → x = y.
Proof.
  intros Hfx Hdx Hfy Hdy Hpos Heq.
  pose proof (compare_units x y Hfx Hfy Hdx Hdy) as Hc.
  rewrite Heq, Z.compare_refl in Hc.
  destruct x as [s|s| |s m e]; try discriminate.
  symmetry. by apply compare_Eq_finite.
Qed.

Lemma clamp_split s delta1 delta2 delta :
  in_range s = true → is_double s = true →
  is_double delta1 = true → is_double delta2 = true →
  is_double delta = true →
  same_direction delta1 delta2 →
  exact_add s delta1 →
  exact_add (clampScale (add s delta1)) delta2 →
  exact_add s delta →
  (value delta == value delta1 + value delta2)%Q →
  clampScale (add (clampScale (add s delta1)) delta2)
  = clampScale (add s delta).
Proof.
  intros Hs Hds Hd1 Hd2 Hd Hdir E1 E2 E Hsum.
  pose proof bounds_units as [H01 Hlt].
  pose proof E1 as (Hfs & Hf1 & Hfa1 & _).
  pose proof E2 as (Hfc1 & Hf2 & Hfa2 & _).
  pose proof E as (_ & Hf & Hfa & _).
  pose proof (exact_add_units _ _ Hds Hd1 E1) as U1.
  pose proof (exact_add_units _ _ Hds Hd E) as U.
  pose proof (sum_units _ _ _ Hf1 Hd1 Hf2 Hd2 Hf Hd Hsum) as Us.
  pose proof (add_is_double _ _ Hds Hd1) as Hda1.
  pose proof (add_is_double _ _ Hds Hd) as Hda.
  apply (in_range_units s Hfs Hds) in Hs as [Hslo Hshi].
  assert (Hsign : (0 ≤ units delta1 ∧ 0 ≤ units delta2)
                  ∨ (units delta1 ≤ 0 ∧ units delta2 ≤ 0)).
  { destruct Hdir as [[H1 H2]|[H1 H2]]; [left|right].
    - by rewrite <- !value_units_nonneg.
    - by rewrite <- !value_units_nonpos. }
  set (a1 := add s delta1) in *. set (a := add s delta) in *.
  destruct (Z.le_gt_cases (units (lit 0.1)) (units a1)) as [Hlo1|Hlo1];
    [destruct (Z.le_gt_cases (units a1) (units (lit 20))) as [Hhi1|Hhi1]|].
  - (* the first sum stays in the interval *)
    pose proof (clamp_mid a1 Hfa1 Hda1 Hlo1 Hhi1) as Hc1.
    rewrite Hc1 in *.
    pose proof (add_is_double _ _ Hda1 Hd2) as Hda2.
    pose proof (exact_add_units _ _ Hda1 Hd2 E2) as U2.
    set (a2 := add a1 delta2) in *.
    assert (Heq : units a2 = units a) by lia.
    destruct (Z.lt_ge_cases (units a) (units (lit 0.1))) as [Hl|Hl];
      [|destruct (Z.le_gt_cases (units a) (units (lit 20))) as [Hh|Hh]].
    + rewrite (clamp_low a2), (clamp_low a); [done|done|done|lia|done|done|lia].
    + rewrite (clamp_mid a2), (clamp_mid a) by (done || lia).
      apply units_inj; (done || lia).
    + rewrite (clamp_high a2), (clamp_high a); (done || lia).
  - (* the first sum is above 20 *)
    rewrite (clamp_high a1 Hfa1 Hda1 Hhi1) in *.
    assert (Hd20 : is_double (lit 20) = true) by (by vm_compute).
    pose proof (add_is_double _ _ Hd20 Hd2) as Hda2.
    pose proof (exact_add_units _ _ Hd20 Hd2 E2) as U2.
    set (a2 := add (lit 20) delta2) in *.
    assert (H1 : 0 ≤ units delta1 ∧ 0 ≤ units delta2) by lia.
    rewrite (clamp_high a) by (done || lia).
    destruct (Z.le_gt_cases (units a2) (units (lit 20))) as [Hh|Hh].
    + rewrite (clamp_mid a2) by (done || lia).
      apply units_inj; (done || lia).
    + by apply clamp_high.
  - (* the first sum is below 0.1 *)
    rewrite (clamp_low a1 Hfa1 Hda1 Hlo1) in *.
    assert (Hd01 : is_double (lit 0.1) = true) by (by vm_compute).
    pose proof (add_is_double _ _ Hd01 Hd2) as Hda2.
    pose proof (exact_add_units _ _ Hd01 Hd2 E2) as U2.
    set (a2 := add (lit 0.1) delta2) in *.
    assert (H1 : units delta1 ≤ 0 ∧ units delta2 ≤ 0) by lia.
    rewrite (clamp_low a) by (done || lia).
    destruct (Z.lt_ge_cases (units a2) (units (lit 0.1))) as [Hl|Hl].
    + by apply clamp_low.
    + rewrite (clamp_mid a2) by (done || lia).
      apply units_inj; (done || lia).
Qed.

Lemma value_le_units x y :
  is_finite x = true → is_double x = true →
  is_finite y = true → is_double y = true →
  (value x <= value y)%Q ↔ units x ≤ units y.
Proof.
  intros Hfx Hdx Hfy Hdy.
  rewrite (value_units x Hfx Hdx), (value_units y Hfy Hdy).
  rewrite Qmult_le_r by (by apply Qpower_0_lt).
  by rewrite (Zle_Qle (units x) (units y)).
Qed.

Lemma Qclamp_compat q q' : (q == q')%Q → (Qclamp q == Qclamp q')%Q.
Proof. intros H. unfold Qclamp. by rewrite H. Qed.

Lemma clampScale_value x :
  is_finite x = true → is_double x = true →
  (value (clampScale x) == Qclamp (value x))%Q.
Proof.
  intros Hf Hd. pose proof bounds_units as [H01 Hlt]. unfold Qclamp.
  assert (Hb : (value (lit 0.1) <= value (lit 20))%Q)
    by (apply value_le_units; (done || lia)).
  destruct (Z.le_gt_cases (units (lit 0.1)) (units x)) as [Hlo|Hlo];
    [destruct (Z.le_gt_cases (units x) (units (lit 20))) as [Hhi|Hhi]|].
  - rewrite (clamp_mid x) by done.
    rewrite Q.max_r by (by apply value_le_units).
    rewrite Q.min_l by (by apply value_le_units). reflexivity.
  - rewrite (clamp_high x) by done.
    rewrite Q.max_r by (apply value_le_units; (done || lia)).
    rewrite Q.min_r by (apply value_le_units; (done || lia)). reflexivity.
  - rewrite (clamp_low x) by done.
    rewrite Q.max_l by (apply value_le_units; (done || lia)).
    rewrite Q.min_l by done. reflexivity.
Qed.

(** ** A sequence of wheel events against one event *)

Lemma splits_exact_is_double s d ds :
  is_double d = true → splits_exact s d ds →
  is_double (foldl add d ds) = true.
Proof.
  revert d. induction ds as [|d' rest IH]; intros d Hd Hex; [done|].
  destruct Hex as (Hd' & _ & Hrest). cbn [foldl].
  apply IH; [by apply add_is_double|done].
Qed.

Lemma wheelStep_split s d1 d2 :
  in_range s = true → is_double s = true →
  is_double d1 = true → is_double d2 = true →
  split_exact s d1 d2 →
  wheelStep (wheelStep s d1) d2 = wheelStep s (add d1 d2).
Proof.
  intros Hs Hds Hd1 Hd2 (Hdir & E1 & E2 & E & Hsum).
  apply (clamp_split s (wheelDelta d1) (wheelDelta d2)
           (wheelDelta (add d1 d2))); try done.
  - by apply wheelDelta_is_double.
  - by apply wheelDelta_is_double.
  - by apply wheelDelta_is_double, add_is_double.
Qed.

Lemma wheelSteps_split s d ds :
  in_range s = true → is_double s = true → is_double d = true →
  splits_exact s d ds →
  foldl wheelStep s (d :: ds) = wheelStep s (foldl add d ds).
Proof.
  intros Hs Hds. revert d.
  induction ds as [|d' rest IH]; intros d Hd Hex; [done|].
  destruct Hex as (Hd' & Hsplit & Hrest).
  cbn [foldl]. rewrite (wheelStep_split s d d') by done.
  apply (IH (add d d')); [by apply add_is_double|done].
Qed.

Lemma splits_exact_sum s d ds :
  splits_exact s d ds →
  exact_add s (wheelDelta (foldl add d ds))
  ∧ (value (wheelDelta (foldl add d ds)) == sum_deltas (d :: ds))%Q.
Proof.
  revert d. induction ds as [|d' rest IH]; intros d Hex.
  - split; [done|]. cbn [foldl sum_deltas]. by rewrite Qplus_0_r.
  - destruct Hex as (_ & (_ & _ & _ & _ & Hsum) & Hrest).
    destruct (IH _ Hrest) as [E Hv]. split; [done|].
    cbn [foldl]. rewrite Hv. cbn [sum_deltas]. rewrite Hsum.
    by rewrite Qplus_assoc.
Qed.

(** C3 (amended): for wheel events on one tracked tile whose scale lies in
    [[0.1, 20]], a wheel delta split into successive smaller ones of the
    same direction lands on the scale the one event with the combined delta
    gives, whenever no addition rounds; that scale lies in [[0.1, 20]] and
    is the exact sum of the starting scale and of the scale deltas
    [deltaY * -0.001], clamped to [[0.1, 20]] once. *)
Theorem wheel_split_agrees images isSynced id d ds
    (tr : gmap string TransformState) t :
  Js.truthy (Some id) = true → id ∈ ids images → tr !! id = Some t →
  in_range (Types.scale t) = true → is_double (Types.scale t) = true →
  is_double d = true → splits_exact (Types.scale t) d ds →
  ∃ r,
    scale_at id (run images (wheels isSynced id (d :: ds)) tr) = Some r
    ∧ scale_at id (run images (wheels isSynced id [foldl add d ds]) tr)
      = Some r
    ∧ in_range r = true
    ∧ (value r == Qclamp (value (Types.scale t) + sum_deltas (d :: ds)))%Q.
Proof.
  intros Hid Hin Ht Hs Hds Hd Hex.
  exists (wheelStep (Types.scale t) (foldl add d ds)).
  destruct (splits_exact_sum _ _ _ Hex) as [(Hfs & Hfd & Hfa & Hva) Hsum].
  unfold scale_at.
  rewrite !(run_wheels_lookup images isSynced id _ tr t Hid Hin Ht).
  cbn [fmap option_fmap option_map Types.scale].
  rewrite (wheelSteps_split _ _ _ Hs Hds Hd Hex).
  split; [done|]. split; [done|]. split.
  - apply clampScale_in_range. unfold wheelDelta in Hfa.
    by destruct (add (Types.scale t) (mul (foldl add d ds) (neg ZOOM_SPEED))).
  - unfold wheelStep. rewrite clampScale_value.
    + change (mul (foldl add d ds) (neg ZOOM_SPEED))
        with (wheelDelta (foldl add d ds)).
      apply Qclamp_compat. by rewrite Hva, Hsum.
    + done.
    + apply add_is_double; [done|].
      by apply wheelDelta_is_double, (splits_exact_is_double _ d ds Hd Hex).
Qed.

Lemma wheel_split_agrees_witness :
  (∃ r,
     scale_at "imgA"
       (run [imgA; imgB]
          (wheels true "imgA" [lit (-30000); lit (-30000)]) fresh2) = Some r
     ∧ scale_at "imgA"
         (run [imgA; imgB]
            (wheels true "imgA" [foldl add (lit (-30000)) [lit (-30000)]])
            fresh2) = Some r
     ∧ in_range r = true
     ∧ (value r
        == Qclamp (value (Types.scale identity)
                   + sum_deltas [lit (-30000); lit (-30000)]))%Q)
  ∧ (∃ r,
       scale_at "imgB"
         (run [imgA; imgB] (wheels false "imgB" [lit 600; lit 600]) fresh2)
       = Some r
       ∧ scale_at "imgB"
           (run [imgA; imgB]
              (wheels false "imgB" [foldl add (lit 600) [lit 600]]) fresh2)
         = Some r
       ∧ in_range r = true
       ∧ (value r
          == Qclamp (value (Types.scale identity)
                     + sum_deltas [lit 600; lit 600]))%Q).
Proof.
  split.
  - apply (wheel_split_agrees [imgA; imgB] true "imgA" (lit (-30000))
             [lit (-30000)] fresh2 identity);
      [reflexivity|apply list_elem_of_here|by vm_compute..|].
    split; [by vm_compute|]. split; [|repeat split; by vm_compute].
    split; [left; split; by vm_compute|repeat split; by vm_compute].
  - apply (wheel_split_agrees [imgA; imgB] false "imgB" (lit 600)
             [lit 600] fresh2 identity);
      [reflexivity|apply list_elem_of_further, list_elem_of_here
      |by vm_compute..|].
    split; [by vm_compute|]. split; [|repeat split; by vm_compute].
    split; [right; split; by vm_compute|repeat split; by vm_compute].
Defined.

(** Instances: from scale 1, two wheel events of
    [deltaY = -30000] and one of [deltaY = -60000] both end at the upper
    bound 20, the first event of the two having reached it already; two
    events of [deltaY = 600] and one of [deltaY = 1200] both end at the lower
    bound 0.1; two events of [deltaY = -256] and one of [deltaY = -512] both
    end at [1.512], away from the bounds. *)
Lemma wheel_split_examples :
  scale_at "imgA"
    (run [imgA; imgB] (wheels true "imgA" [lit (-30000)]) fresh2)
  = Some (lit 20)
  ∧ scale_at "imgA"
      (run [imgA; imgB] (wheels true "imgA" [lit (-30000); lit (-30000)])
         fresh2)
    = Some (lit 20)
  ∧ scale_at "imgA"
      (run [imgA; imgB] (wheels true "imgA" [lit (-60000)]) fresh2)
    = Some (lit 20)
  ∧ scale_at "imgB"
      (run [imgA; imgB] (wheels false "imgB" [lit 600; lit 600]) fresh2)
    = Some (lit 0.1)
  ∧ scale_at "imgB"
      (run [imgA; imgB] (wheels false "imgB" [lit 1200]) fresh2)
    = Some (lit 0.1)
  ∧ scale_at "imgA"
      (run [imgA; imgB] (wheels true "imgA" [lit (-256); lit (-256)]) fresh2)
    = Some (lit 1.512)
  ∧ scale_at "imgA"
      (run [imgA; imgB] (wheels true "imgA" [lit (-512)]) fresh2)
    = Some (lit 1.512)
  ∧ split_exact (lit 1) (lit (-256)) (lit (-256)).
Proof.
  repeat split; try (by vm_compute). left. split; by vm_compute.
Qed.

(** What the hypotheses exclude.  In the counterexample to C3 an addition
    is rounded.  Events of opposite directions need not agree with the
    combined event: from scale 1, [deltaY = 2000] then [deltaY = -1000] ends
    at [1.1], the first event having stopped at the bound, where one event
    of [deltaY = 1000] ends at [0.1]. *)
Lemma wheel_split_limits :
  ¬ split_exact (lit 1) (lit (-100)) (lit (-100))
  ∧ ¬ same_direction (wheelDelta (lit 2000)) (wheelDelta (lit (-1000)))
  ∧ scale_at "imgA"
      (run [imgA; imgB] (wheels true "imgA" [lit 2000; lit (-1000)]) fresh2)
    = Some (lit 1.1)
  ∧ scale_at "imgA"
      (run [imgA; imgB] (wheels true "imgA" [lit 1000]) fresh2)
    = Some (lit 0.1).
Proof.
  split; [|split; [|split; by vm_compute]].
  - intros (_ & _ & (_ & _ & _ & H) & _). vm_compute in H. discriminate.
  - intros [[H _]|[_ H]]; vm_compute in H; by apply H.
Qed.

End Split.
